(** * Binary encoding of signed account transactions

    A shallow embedding of [src/serialization.ts] and
    [src/serializationHelpers.ts] of the Concordium node SDK, and the
    properties the specification states about them.

    Conventions of the embedding:
    - a [Buffer] is the list of its bytes, each a [Z] in [0, 256);
    - a JavaScript [bigint] is a [Z];
    - a JavaScript [number] is [number] below: a rational, [NaN] or an
      infinity (every finite double is a rational; the two zeros coincide,
      which no function of this file distinguishes);
    - a function that may [throw] returns a [result]; the thrown value is an
      [error];
    - an object used as a map ([Record<number, T>]) is the list of its own
      properties in creation order. *)

From Stdlib Require Import QArith Ascii String.
From stdpp Require Import base list sorting strings.

Local Open Scope Z_scope.

(** ** Thrown values *)

Inductive error : Type :=
  (** [Error('No signatures were provided')] *)
  | NoSignaturesProvided
  (** [Error('The input has to be a <bits> bit unsigned integer but it was: ' + value)];
      [bits] is the width the message names. *)
  | InputNotUnsigned (bits : Z)
  (** [RangeError('"value" argument is out of bounds')] of the buffer
      package's [writeUInt16BE]. *)
  | ValueOutOfBounds
  (** the value of a missing property was used *)
  | UndefinedProperty
  (** anything thrown by a collaborator (payload handler, cost model) *)
  | Thrown (message : string).

Inductive result (A : Type) : Type :=
  | Ok (a : A)
  | Err (e : error).
Arguments Ok {A} a.
Arguments Err {A} e.

#[global] Instance result_ret : MRet result := λ A, Ok.
#[global] Instance result_bind : MBind result := λ A B f m,
  match m with
  | Ok a => f a
  | Err e => Err e
  end.
#[global] Instance result_fmap : FMap result := λ A B f m,
  match m with
  | Ok a => Ok (f a)
  | Err e => Err e
  end.

Definition is_Ok {A} (r : result A) : Prop := ∃ a, r = Ok a.
Definition is_Err {A} (r : result A) : Prop := ∃ e, r = Err e.

(** ** Buffers *)

Definition Buffer : Type := list Z.

(** [Buffer.concat(list)] *)
Definition Buffer_concat (buffers : list Buffer) : Buffer := concat buffers.

(** Every element is a byte. *)
Definition bytes (b : Buffer) : Prop := Forall (λ x, 0 ≤ x < 256) b.

(** The [n] low-order bytes of [v], most significant first: what
    [DataView.setUint16/32] and [setBigUint64] store with
    [littleEndian = false] (the value is taken modulo [2^(8n)]). *)
Fixpoint be_bytes (n : nat) (v : Z) : Buffer :=
  match n with
  | O => []
  | S k => Z.land (Z.shiftr v (8 * Z.of_nat k)) 255 :: be_bytes k v
  end.

(** The unsigned integer a big-endian byte sequence denotes. *)
Definition be_value (b : Buffer) : Z := fold_left (λ acc x, 256 * acc + x) b 0.

(** ** JavaScript numbers *)

Inductive number : Type :=
  | Num (q : Q)
  | NaN
  | Infinity
  | NegInfinity.

Definition of_Z (z : Z) : number := Num (inject_Z z).
Definition of_nat (n : nat) : number := of_Z (Z.of_nat n).

(** [a < b] on numbers; [a > b] is [js_lt b a]. *)
Definition js_lt (a b : number) : bool :=
  match a, b with
  | NaN, _ | _, NaN => false
  | Num x, Num y => negb (Qle_bool y x)
  | NegInfinity, NegInfinity => false
  | NegInfinity, _ => true
  | _, NegInfinity => false
  | Infinity, _ => false
  | Num _, Infinity => true
  end.
Definition js_gt (a b : number) : bool := js_lt b a.

(** [Number.isInteger(v)] *)
Definition Number_isInteger (v : number) : bool :=
  match v with
  | Num q => Z.rem (Qnum q) (Z.pos (Qden q)) =? 0
  | _ => false
  end.

(** The integer stored for a number by an integer-typed array or view
    ([ToNumber] then truncation; [NaN] and the infinities store 0). *)
Definition to_integer (v : number) : Z :=
  match v with
  | Num q => Z.quot (Qnum q) (Z.pos (Qden q))
  | _ => 0
  end.

(** What the specification says of a value: it is the integer [z], it is
    negative, it exceeds [max]. *)
Definition represents (v : number) (z : Z) : Prop :=
  match v with
  | Num q => (q == inject_Z z)%Q
  | _ => False
  end.

Definition integral (v : number) : Prop := ∃ z, represents v z.

Definition negative (v : number) : Prop :=
  match v with
  | Num q => (q < 0)%Q
  | NegInfinity => True
  | _ => False
  end.

Definition exceeds (v : number) (max : Z) : Prop :=
  match v with
  | Num q => (inject_Z max < q)%Q
  | Infinity => True
  | _ => False
  end.

(** ** Fixed-width encoders ([serializationHelpers.ts]) *)

Definition encodeWord64 (value : Z) : result Buffer :=
  if (value >? 9223372036854775807) || (value <? 0)
  then Err (InputNotUnsigned 64)
  else Ok (be_bytes 8 value).

Definition encodeWord32 (value : number) : result Buffer :=
  if js_gt value (of_Z 4294967295) || js_lt value (of_Z 0)
     || negb (Number_isInteger value)
  then Err (InputNotUnsigned 32)
  else Ok (be_bytes 4 (to_integer value)).

Definition encodeWord16 (value : number) : result Buffer :=
  if js_gt value (of_Z 65535) || js_lt value (of_Z 0)
     || negb (Number_isInteger value)
  then Err (InputNotUnsigned 16)
  else Ok (be_bytes 2 (to_integer value)).

(** The message of [encodeWord8] names 16 bits, as in the source. *)
Definition encodeWord8 (value : number) : result Buffer :=
  if js_gt value (of_Z 255) || js_lt value (of_Z 0)
     || negb (Number_isInteger value)
  then Err (InputNotUnsigned 16)
  else Ok [to_integer value `mod` 256].

(** ** Objects used as maps

    [Record<number, T>]: the own properties in creation order. A property
    key is the canonical string of a number; the embedding carries the
    (integer) number itself, so [String(k)] names the property and
    [Number(String(k))] is [k] again. Keys of a well-formed object are
    pairwise distinct ([wf]). *)

Definition PropertyKey : Type := Z.

Definition NumRecord (T : Type) : Type := list (PropertyKey * T).

Definition wf {T} (o : NumRecord T) : Prop := NoDup o.*1.

(** [o[key]] *)
Fixpoint get {T} (o : NumRecord T) (key : PropertyKey) : option T :=
  match o with
  | [] => None
  | (k, t) :: rest => if decide (k = key) then Some t else get rest key
  end.

(** An array index is an integer key in [0, 2^32 - 1). *)
Definition is_array_index (k : PropertyKey) : Prop := 0 ≤ k < 4294967295.

#[global] Instance is_array_index_dec k : Decision (is_array_index k).
Proof. unfold is_array_index. apply _. Defined.

(** [Object.keys(o)]: the array indices in ascending numeric order, then
    the other keys in creation order (OrdinaryOwnPropertyKeys). *)
Definition Object_keys {T} (o : NumRecord T) : list PropertyKey :=
  merge_sort Z.le (filter is_array_index o.*1)
  ++ filter (λ k, ¬ is_array_index k) o.*1.

(** [Number(value)] for a property key. *)
Definition Number (value : PropertyKey) : number := of_Z value.

Definition encodeWord8FromString (value : PropertyKey) : result Buffer :=
  encodeWord8 (Number value).

Section serializeMap.
Context {T : Type}.
Variable m : NumRecord T.
Variable encodeSize : number → result Buffer.
Variable encodeKey : PropertyKey → result Buffer.
Variable encodeValue : T → result Buffer.

(** [m[key]] handed to [encodeValue]. Every key [Object.keys] returns is
    an own property, so the [None] branch is never taken
    ([get_Object_keys] below). *)
Definition encodeValueAt (key : PropertyKey) : result Buffer :=
  match get m key with
  | Some t => encodeValue t
  | None => Err UndefinedProperty
  end.

(** [keys.forEach(key => { buffers.push(..); buffers.push(..) })] *)
Fixpoint forEach_push (keys : list PropertyKey) (buffers : list Buffer)
    : result (list Buffer) :=
  match keys with
  | [] => Ok buffers
  | key :: rest =>
      k ← encodeKey key;
      v ← encodeValueAt key;
      forEach_push rest (buffers ++ [k; v])
  end.

Definition serializeMap : result Buffer :=
  let keys := Object_keys m in
  size ← encodeSize (of_nat (length keys));
  buffers ← forEach_push keys [size];
  Ok (Buffer_concat buffers).
End serializeMap.

(** The layout the specification gives for the map encoder:
    [encodeCount(|map|) ++ Σ (encodeKey(k) ++ encodeValue(map[k]))] over a
    given sequence of entries. *)
Fixpoint spec_entries {T} (encodeKey : PropertyKey → result Buffer)
    (encodeValue : T → result Buffer) (entries : list (PropertyKey * T))
    : result Buffer :=
  match entries with
  | [] => Ok []
  | (k, t) :: rest =>
      kb ← encodeKey k;
      vb ← encodeValue t;
      tl ← spec_entries encodeKey encodeValue rest;
      Ok (kb ++ vb ++ tl)
  end.

Definition spec_encodeMap {T} (encodeCount : number → result Buffer)
    (encodeKey : PropertyKey → result Buffer)
    (encodeValue : T → result Buffer) (entries : list (PropertyKey * T))
    : result Buffer :=
  count ← encodeCount (of_nat (length entries));
  body ← spec_entries encodeKey encodeValue entries;
  Ok (count ++ body).

(** The entries of [o] taken in the order of a list of keys. *)
Definition entries_in_order {T} (o : NumRecord T) (keys : list PropertyKey)
    : list (PropertyKey * T) :=
  omap (λ k, (k,.) <$> get o k) keys.

(** ** Hexadecimal strings ([buffer] package, version 6)

    Strings are sequences of code units below 256. *)

Definition code (c : ascii) : Z := Z.of_N (N_of_ascii c).

(** The value of a digit in radix 16. *)
Definition hex_digit (c : ascii) : option Z :=
  let n := code c in
  if (48 <=? n) && (n <=? 57) then Some (n - 48)
  else if (97 <=? n) && (n <=? 102) then Some (n - 87)
  else if (65 <=? n) && (n <=? 70) then Some (n - 55)
  else None.

(** White space and line terminators (TAB, LF, VT, FF, CR, SP, NBSP). *)
Definition is_white_space (c : ascii) : bool :=
  bool_decide (code c ∈ [9; 10; 11; 12; 13; 32; 160]).

Fixpoint trim_start (s : string) : string :=
  match s with
  | String c rest => if is_white_space c then trim_start rest else s
  | EmptyString => s
  end.

(** The value of the longest prefix of radix-16 digits; [acc] is the value
    read so far, [None] while no digit was read. *)
Fixpoint hex_prefix (s : string) (acc : option Z) : option Z :=
  match s with
  | String c rest =>
      match hex_digit c with
      | Some d => hex_prefix rest (Some (16 * default 0 acc + d))
      | None => acc
      end
  | EmptyString => acc
  end.

(** [parseInt(s, 16)]; [None] is [NaN]. Leading white space is skipped, a
    sign and then a [0x] prefix are accepted, and parsing ends at the first
    character that is not a digit. (The value is exact below [2^53]; the
    groups read here have two characters.) *)
Definition parseInt16 (s : string) : option Z :=
  let s1 := trim_start s in
  let '(sign, s2) :=
    match s1 with
    | String "-"%char rest => (-1, rest)
    | String "+"%char rest => (1, rest)
    | _ => (1, s1)
    end in
  let s3 :=
    match s2 with
    | String "0"%char (String "x"%char rest) => rest
    | String "0"%char (String "X"%char rest) => rest
    | _ => s2
    end in
  z ← hex_prefix s3 None;
  Some (sign * z).

(** [hexWrite]: for [i] below [string.length >>> 1], the group
    [string.substr(2 * i, 2)] is read with [parseInt(.., 16)] and stored as
    a byte (modulo 256); the loop returns at the first group that reads as
    [NaN]. The result is the part of the buffer that was written. *)
Fixpoint hexWrite (s : string) : Buffer :=
  match s with
  | String a (String b rest) =>
      match parseInt16 (String a (String b EmptyString)) with
      | Some parsed => parsed `mod` 256 :: hexWrite rest
      | None => []
      end
  | _ => []
  end.

(** [Buffer.from(s, 'hex')]: a buffer of [s.length >>> 1] bytes is
    written by [hexWrite] and sliced to the count of bytes written. *)
Definition Buffer_from_hex (s : string) : Buffer := hexWrite s.

(** The bytes that a string made of an even number of hexadecimal digits
    denotes; [None] for any other string. *)
Fixpoint spec_hex_decode (s : string) : option Buffer :=
  match s with
  | EmptyString => Some []
  | String a (String b rest) =>
      h ← hex_digit a;
      l ← hex_digit b;
      tl ← spec_hex_decode rest;
      Some (16 * h + l :: tl)
  | _ => None
  end.

(** What a group of two characters reads as: both digits; a digit and
    something else (the digit alone, unless the group is a [0x] prefix);
    white space or a sign and a digit; anything else is [NaN]. *)
Definition group_value (a b : ascii) : option Z :=
  match hex_digit a, hex_digit b with
  | Some h, Some l => Some (16 * h + l)
  | Some h, None =>
      if decide (a = "0"%char ∧ (b = "x"%char ∨ b = "X"%char))
      then None else Some h
  | None, Some l =>
      if is_white_space a then Some l
      else if decide (a = "+"%char) then Some l
      else if decide (a = "-"%char) then Some (- l)
      else None
  | None, None => None
  end.

Definition all_ascii : list ascii := ascii_of_nat <$> seq 0 256.

(** [buf.writeUInt16BE(value, 0)] on [Buffer.alloc(2)]: the bounds check
    of [checkInt], then the two bytes. *)
Definition writeUInt16BE (value : Z) : result Buffer :=
  if (value >? 65535) || (value <? 0)
  then Err ValueOutOfBounds
  else Ok [Z.land (Z.shiftr value 8) 255; Z.land value 255].

(** [buf.toString('hex')] *)
Definition hex_char (d : Z) : ascii :=
  ascii_of_N (Z.to_N (if d <? 10 then 48 + d else 87 + d)).

Fixpoint toString_hex (b : Buffer) : string :=
  match b with
  | [] => EmptyString
  | x :: rest =>
      String (hex_char (x / 16)) (String (hex_char (x `mod` 16)) (toString_hex rest))
  end.

(** ** Signatures ([serialization.ts]) *)

Definition CredentialSignature : Type := NumRecord string.
Definition AccountTransactionSignature : Type := NumRecord CredentialSignature.

Definition putSignature (signature : string) : result Buffer :=
  let signatureBytes := Buffer_from_hex signature in
  length ← writeUInt16BE (Z.of_nat (length signatureBytes));
  Ok (Buffer_concat [length; signatureBytes]).

Definition putCredentialSignatures (credSig : CredentialSignature)
    : result Buffer :=
  serializeMap credSig encodeWord8 encodeWord8FromString putSignature.

Definition serializeAccountTransactionSignature
    (signatures : AccountTransactionSignature) : result Buffer :=
  if decide (length (Object_keys signatures) = 0%nat)
  then Err NoSignaturesProvided
  else serializeMap signatures encodeWord8 encodeWord8FromString
         putCredentialSignatures.

(** ** Transactions ([serialization.ts]) *)

(** [AccountTransactionType]: the numeric value of the enum member. *)
Definition AccountTransactionType : Type := Z.

Record AccountAddress : Type := {
  address : string;
  decodedAddress : Buffer
}.

Record TransactionExpiry : Type := {
  expiryEpochSeconds : Z
}.

Record AccountTransactionHeader : Type := {
  sender : AccountAddress;
  nonce : Z;
  expiry : TransactionExpiry
}.

Record AccountTransactionHandler (Payload : Type) : Type := {
  serialize : Payload → result Buffer;
  getBaseEnergyCost : Payload → result Z
}.
Arguments serialize {Payload} _ _.
Arguments getBaseEnergyCost {Payload} _ _.

(** What [serialization.ts] imports from modules that are not part of the
    sources at hand ([types], [accountTransactions], [energyCost], [util],
    [hash]). [AccountTransactionKind] is the value of
    [BlockItemKind.AccountTransactionKind], an enum member that fits a
    byte. Collaborators that may throw return a [result]. *)
Class Imports : Type := {
  AccountTransactionPayload : Type;
  AccountTransactionKind : Z;
  AccountTransactionKind_byte : 0 ≤ AccountTransactionKind < 256;
  getAccountTransactionHandler :
    AccountTransactionType → result (AccountTransactionHandler AccountTransactionPayload);
  calculateEnergyCost : Z → Z → Z → result Z;
  countSignatures : AccountTransactionSignature → result Z;
  sha256 : list Buffer → Buffer
}.

Record AccountTransaction `{Imports} : Type := {
  header : AccountTransactionHeader;
  type : AccountTransactionType;
  payload : AccountTransactionPayload
}.

(** [Buffer.from(Uint8Array.of(type))]: one element, stored modulo 256. *)
Definition serializeAccountTransactionType (type : AccountTransactionType)
    : Buffer :=
  [type `mod` 256].

Definition serializeAccountTransactionHeader
    (header : AccountTransactionHeader) (payloadSize : number)
    (energyAmount : Z) : result Buffer :=
  let serializedSender := decodedAddress (sender header) in
  serializedNonce ← encodeWord64 (nonce header);
  serializedEnergyAmount ← encodeWord64 energyAmount;
  serializedPayloadSize ← encodeWord32 payloadSize;
  serializedExpiry ← encodeWord64 (expiryEpochSeconds (expiry header));
  Ok (Buffer_concat
        [serializedSender; serializedNonce; serializedEnergyAmount;
         serializedPayloadSize; serializedExpiry]).

Definition serializeAccountTransaction `{Imports}
    (accountTransaction : AccountTransaction)
    (signatures : AccountTransactionSignature) : result Buffer :=
  serializedBlockItemKind ← encodeWord8 (of_Z AccountTransactionKind);
  serializedAccountTransactionSignatures ←
    serializeAccountTransactionSignature signatures;
  let serializedType :=
    serializeAccountTransactionType (type accountTransaction) in
  accountTransactionHandler ←
    getAccountTransactionHandler (type accountTransaction);
  serializedPayload ←
    serialize accountTransactionHandler (payload accountTransaction);
  baseEnergyCost ←
    getBaseEnergyCost accountTransactionHandler (payload accountTransaction);
  signatureCount ← countSignatures signatures;
  energyCost ←
    calculateEnergyCost signatureCount
      (Z.of_nat (length serializedPayload + 1)) baseEnergyCost;
  serializedHeader ←
    serializeAccountTransactionHeader (header accountTransaction)
      (of_nat (length serializedPayload + 1)) energyCost;
  Ok (Buffer_concat
        [serializedBlockItemKind; serializedAccountTransactionSignatures;
         serializedHeader; serializedType; serializedPayload]).

Definition getAccountTransactionHash `{Imports}
    (accountTransaction : AccountTransaction)
    (signatures : AccountTransactionSignature) : result string :=
  serializedAccountTransaction ←
    serializeAccountTransaction accountTransaction signatures;
  Ok (toString_hex (sha256 [serializedAccountTransaction])).

(** [signatureCount] is an optional parameter with default [1n]. *)
Definition getAccountTransactionSignDigest `{Imports}
    (accountTransaction : AccountTransaction)
    (signatureCount : option Z) : result Buffer :=
  let signatureCount := default 1 signatureCount in
  accountTransactionHandler ←
    getAccountTransactionHandler (type accountTransaction);
  serializedPayload ←
    serialize accountTransactionHandler (payload accountTransaction);
  baseEnergyCost ←
    getBaseEnergyCost accountTransactionHandler (payload accountTransaction);
  energyCost ←
    calculateEnergyCost signatureCount
      (Z.of_nat (length serializedPayload + 1)) baseEnergyCost;
  serializedHeader ←
    serializeAccountTransactionHeader (header accountTransaction)
      (of_nat (length serializedPayload + 1)) energyCost;
  Ok (sha256
        [serializedHeader;
         serializeAccountTransactionType (type accountTransaction);
         serializedPayload]).

Definition serializeAccountTransactionForSubmission `{Imports}
    (accountTransaction : AccountTransaction)
    (signatures : AccountTransactionSignature) : result Buffer :=
  serializedAccountTransaction ←
    serializeAccountTransaction accountTransaction signatures;
  serializedVersion ← encodeWord8 (of_Z 0);
  Ok (Buffer_concat [serializedVersion; serializedAccountTransaction]).

(** ** Length-prefixed buffers and strings ([serializationHelpers.ts]) *)

(** [Memo]: the memo bytes. *)
Record Memo : Type := {
  memo : Buffer
}.

Definition encodeMemo (m : Memo) : result Buffer :=
  length ← encodeWord16 (of_nat (length (memo m)));
  Ok (Buffer_concat [length; memo m]).

Definition packBufferWithWord32Offset (buffer : Buffer) : result Buffer :=
  length ← encodeWord32 (of_nat (length buffer));
  Ok (Buffer_concat [length; buffer]).

Definition packBufferWithWord16Offset (buffer : Buffer) : result Buffer :=
  length ← encodeWord16 (of_nat (length buffer));
  Ok (Buffer_concat [length; buffer]).

(** The UTF-8 bytes of one code unit below 256 ([utf8ToBytes] of the
    buffer package): one byte below [0x80], two bytes otherwise. Code
    units from 256 on (three-byte forms, surrogates) are outside the
    strings of this development. *)
Definition utf8_char (c : ascii) : Buffer :=
  let codePoint := code c in
  if codePoint <? 128 then [codePoint]
  else [Z.lor (Z.shiftr codePoint 6) 192;
        Z.lor (Z.land codePoint 63) 128].

(** [new Buffer(str, 'utf8')] *)
Fixpoint utf8ToBytes (str : string) : Buffer :=
  match str with
  | EmptyString => []
  | String c rest => utf8_char c ++ utf8ToBytes rest
  end.

Definition encodeStringToByteArray (str : string) : result Buffer :=
  let buffer := utf8ToBytes str in
  length ← encodeWord16 (of_nat (length buffer));
  Ok (Buffer_concat [length; buffer]).

(** The size of the signature block: one byte of count, and for every
    credential one byte of index, one byte of count and, for every key,
    one byte of index, two bytes of length and the signature bytes. *)
Definition credential_size (credSig : CredentialSignature) : nat :=
  (1 + sum_list ((λ e, 3 + length (Buffer_from_hex e.2)) <$> credSig))%nat.

Definition signature_block_size (signatures : AccountTransactionSignature)
    : nat :=
  (1 + sum_list ((λ e, 1 + credential_size e.2) <$> signatures))%nat.

(** What the encoder of a credential accepts: at most 255 keys, each a
    byte, each with a signature of at most 65535 decoded bytes. *)
Definition encodable_credential (credSig : CredentialSignature) : Prop :=
  (length credSig ≤ 255)%nat
  ∧ Forall (λ e, 0 ≤ e.1 ≤ 255
                 ∧ Z.of_nat (length (Buffer_from_hex e.2)) ≤ 65535) credSig.

(** ** The node client ([ConcordiumNodeClient], constructor)

    The gRPC types and the constructor of [P2PClient] are parameters; the
    latter receives the address and the port that the source joins into
    one string. *)
Module NodeClient.
Section client.
Variables ChannelCredentials Metadata Options P2PClient : Type.
Variable P2PClient_new :
  string → number → ChannelCredentials → option Options → result P2PClient.

Record ConcordiumNodeClient : Type := {
  client : P2PClient;
  metadata : Metadata;
  address : string;
  port : number;
  timeout : number
}.

(** [Number.isSafeInteger(v)]: an integer of magnitude at most
    [2^53 - 1]. *)
Definition Number_isSafeInteger (v : number) : bool :=
  Number_isInteger v
  && negb (js_gt v (of_Z 9007199254740991))
  && negb (js_lt v (of_Z (-9007199254740991))).

(** What [new ConcordiumNodeClient(..)] gives: the client, the error
    about the timeout, or what [new P2PClient(..)] threw. *)
Inductive constructed : Type :=
  | Client (c : ConcordiumNodeClient)
  | InvalidTimeout
  | Failed (e : error).

Definition constructor (address : string) (port : number)
    (credentials : ChannelCredentials) (metadata : Metadata)
    (timeout : number) (options : option Options) : constructed :=
  if js_lt timeout (of_Z 0) || negb (Number_isSafeInteger timeout)
  then InvalidTimeout
  else
    match P2PClient_new address port credentials options with
    | Ok c =>
        Client {| client := c; metadata := metadata; address := address;
                  port := port; timeout := timeout |}
    | Err e => Failed e
    end.

End client.
End NodeClient.

(** ** A fixture

    Stand-ins for the imported collaborators, used to run the encoders on
    concrete transactions: payloads are already byte sequences, the kind
    tag is 1, every signature is counted, and the digest is a 32-byte
    placeholder (not SHA-256). *)
Module Fixture.

Definition handler : AccountTransactionHandler Buffer := {|
  serialize p := Ok p;
  getBaseEnergyCost p := Ok 300
|}.

Definition count (signatures : AccountTransactionSignature) : Z :=
  Z.of_nat (sum_list ((λ cred, length (Object_keys cred.2)) <$> signatures)).

Definition cost (signatureCount size base : Z) : result Z :=
  Ok (base + 100 * signatureCount + size + 60).

Definition digest (data : list Buffer) : Buffer :=
  take 32 (concat data ++ replicate 32 0).

#[export] Instance imports : Imports := {|
  AccountTransactionPayload := Buffer;
  AccountTransactionKind := 1;
  AccountTransactionKind_byte := ltac:(lia);
  getAccountTransactionHandler := λ _, Ok handler;
  calculateEnergyCost := cost;
  countSignatures := λ s, Ok (count s);
  sha256 := digest
|}.

Definition zero_address : AccountAddress := {|
  address := "";
  decodedAddress := replicate 32 0
|}.

(** sender = 32 zero bytes, nonce = 1, expiry = 100, type tag = 3,
    payload = 0x0A0B *)
Definition tx_with_nonce (n : Z) : AccountTransaction := {|
  header := {| sender := zero_address; nonce := n;
               expiry := {| expiryEpochSeconds := 100 |} |};
  type := 3;
  payload := [10; 11]
|}.

Definition tx : AccountTransaction := tx_with_nonce 1.

(** [{0: {0: "aa"}}] *)
Definition sigs : AccountTransactionSignature := [(0, [(0, "aa"%string)])].

(** The bytes of [tx] assembled with [sigs]: kind tag, signature block,
    header (sender, nonce, energy 463, payload size 3, expiry), type tag,
    payload. *)
Definition assembled : Buffer :=
  [1] ++ [1; 0; 1; 0; 0; 1; 170]
  ++ (replicate 32 0 ++ [0; 0; 0; 0; 0; 0; 0; 1]
      ++ [0; 0; 0; 0; 0; 0; 1; 207] ++ [0; 0; 0; 3]
      ++ [0; 0; 0; 0; 0; 0; 0; 100])
  ++ [3] ++ [10; 11].

End Fixture.

(** * Properties *)

(** ** The [result] monad *)

Lemma bind_Ok {A B} (m : result A) (f : A → result B) b :
  m ≫= f = Ok b ↔ ∃ a, m = Ok a ∧ f a = Ok b.
Proof.
  destruct m as [a|e]; simpl; split.
  - eauto.
  - by intros (a' & [= <-] & ?).
  - discriminate.
  - by intros (? & [=] & _).
Qed.

Lemma bind_Err {A B} (m : result A) (f : A → result B) e :
  m ≫= f = Err e ↔ m = Err e ∨ ∃ a, m = Ok a ∧ f a = Err e.
Proof.
  destruct m as [a|e']; simpl; split.
  - eauto.
  - by intros [[=]|(a' & [= <-] & ?)].
  - intros [= <-]. by left.
  - by intros [[= <-]|(? & [=] & _)].
Qed.

Lemma Ok_inj {A} (x y : A) : Ok x = Ok y → x = y.
Proof. by intros [= ->]. Qed.

Lemma result_cases {A} (r : result A) : is_Ok r ∨ is_Err r.
Proof. destruct r; [left|right]; eexists; done. Qed.

Lemma not_Ok_and_Err {A} (r : result A) : is_Ok r → is_Err r → False.
Proof. intros [a ->] [e [=]]. Qed.

(** Split a successful sequence of binds into its steps. *)
Ltac inv_Ok H :=
  repeat match type of H with
  | _ ≫= _ = Ok _ =>
      let a := fresh "b" in let Ha := fresh "E" in
      apply bind_Ok in H as (a & Ha & H)
  | (let x := _ in _) = Ok _ => cbv zeta in H
  end.

(** ** Big-endian bytes *)

Lemma length_be_bytes n v : length (be_bytes n v) = n.
Proof. induction n; simpl; congruence. Qed.

Lemma land_255 x : Z.land x 255 = x `mod` 256.
Proof. change 255 with (Z.ones 8). by rewrite Z.land_ones. Qed.

Lemma bytes_be_bytes n v : bytes (be_bytes n v).
Proof.
  induction n; constructor; [|done].
  rewrite land_255. apply Z.mod_pos_bound. lia.
Qed.

Lemma fold_be_bytes n v acc :
  fold_left (λ a x, 256 * a + x) (be_bytes n v) acc
  = acc * 2 ^ (8 * Z.of_nat n) + v `mod` 2 ^ (8 * Z.of_nat n).
Proof.
  revert acc. induction n as [|k IH]; intros acc.
  - simpl. rewrite Z.mod_1_r. lia.
  - cbn [be_bytes fold_left]. rewrite IH, land_255.
    rewrite Z.shiftr_div_pow2 by lia.
    replace (8 * Z.of_nat (S k)) with (8 * Z.of_nat k + 8) by lia.
    rewrite Z.pow_add_r by lia. change (2 ^ 8) with 256.
    rewrite (Z.rem_mul_r v (2 ^ (8 * Z.of_nat k)) 256) by lia.
    lia.
Qed.

(** The bytes denote the value modulo [2^(8n)], most significant first. *)
Lemma be_value_be_bytes n v :
  be_value (be_bytes n v) = v `mod` 2 ^ (8 * Z.of_nat n).
Proof. unfold be_value. rewrite fold_be_bytes. lia. Qed.

Lemma be_value_in_range n v :
  0 ≤ v < 2 ^ (8 * Z.of_nat n) → be_value (be_bytes n v) = v.
Proof. intros. rewrite be_value_be_bytes. by apply Z.mod_small. Qed.

#[global] Arguments be_bytes : simpl never.

(** ** Numbers *)

Lemma js_gt_of_Z v max : js_gt v (of_Z max) = true ↔ exceeds v max.
Proof.
  destruct v as [q| | |]; simpl; try (split; [discriminate|done]); [|done].
  rewrite negb_true_iff, <-not_true_iff_false, Qle_bool_iff.
  split; [apply Qnot_le_lt|apply Qlt_not_le].
Qed.

Lemma js_lt_of_Z_0 v : js_lt v (of_Z 0) = true ↔ negative v.
Proof.
  destruct v as [q| | |]; simpl; try (split; [discriminate|done]); [|done].
  rewrite negb_true_iff, <-not_true_iff_false, Qle_bool_iff.
  split; [apply Qnot_le_lt|apply Qlt_not_le].
Qed.

Lemma Number_isInteger_integral v : Number_isInteger v = true ↔ integral v.
Proof.
  destruct v as [[n d]| | |]; simpl;
    try (split; [discriminate|by intros [? []]]).
  rewrite Z.eqb_eq, Z.rem_divide by done. unfold integral, represents, Qeq. simpl.
  split; intros [z Hz]; exists z; lia.
Qed.

Lemma to_integer_represents v z : represents v z → to_integer v = z.
Proof.
  destruct v as [[n d]| | |]; simpl; try done.
  unfold Qeq. simpl. intros Hz.
  replace n with (z * Z.pos d) by lia. by rewrite Z.quot_mul.
Qed.

Lemma represents_of_Z z : represents (of_Z z) z.
Proof. simpl. reflexivity. Qed.

Lemma represents_inj v z1 z2 : represents v z1 → represents v z2 → z1 = z2.
Proof. intros H1 H2. by rewrite <-(to_integer_represents v z1), <-(to_integer_represents v z2). Qed.

Lemma negative_represents v z : represents v z → negative v ↔ z < 0.
Proof.
  destruct v as [q| | |]; simpl; try done. intros ->.
  change 0%Q with (inject_Z 0). by rewrite <-Zlt_Qlt.
Qed.

Lemma exceeds_represents v z max : represents v z → exceeds v max ↔ max < z.
Proof.
  destruct v as [q| | |]; simpl; try done. intros ->. by rewrite <-Zlt_Qlt.
Qed.

(** The check shared by the [number] encoders. *)
Lemma range_check v max :
  js_gt v (of_Z max) || js_lt v (of_Z 0) || negb (Number_isInteger v) = true
  ↔ negative v ∨ ¬ integral v ∨ exceeds v max.
Proof.
  rewrite !orb_true_iff, negb_true_iff, <-not_true_iff_false.
  rewrite js_gt_of_Z, js_lt_of_Z_0, Number_isInteger_integral. tauto.
Qed.

Lemma range_check_in_range v max :
  js_gt v (of_Z max) || js_lt v (of_Z 0) || negb (Number_isInteger v) = false
  ↔ ∃ z, represents v z ∧ 0 ≤ z ≤ max.
Proof.
  rewrite <-not_true_iff_false, range_check. split.
  - intros Hn. destruct (decide (Number_isInteger v = true)) as [Hi|Hi].
    + apply Number_isInteger_integral in Hi as [z Hz]. exists z. split; [done|].
      rewrite (negative_represents v z), (exceeds_represents v z) in Hn by done.
      destruct (decide (0 ≤ z ≤ max)); [done|]. exfalso. apply Hn.
      destruct (decide (z < 0)); [by left|right; right; lia].
    + exfalso. apply Hn. right; left. by rewrite <-Number_isInteger_integral.
  - intros (z & Hz & Hr).
    rewrite (negative_represents v z), (exceeds_represents v z) by done.
    intros [?|[Hni|?]]; [lia| |lia]. apply Hni. by exists z.
Qed.

(** ** Fixed-width encoders *)

(** [encodeWord8] fails exactly on a value that is negative, not integral
    or above 255, and otherwise yields the one byte of the value. *)
Lemma encodeWord8_Err v :
  is_Err (encodeWord8 v) ↔ negative v ∨ ¬ integral v ∨ exceeds v 255.
Proof.
  rewrite <-range_check. unfold encodeWord8.
  destruct (_ || _ || _); split; try done.
  - by eexists.
  - by intros [? [=]].
Qed.

Lemma encodeWord8_Ok v b :
  encodeWord8 v = Ok b ↔ ∃ z, represents v z ∧ 0 ≤ z ≤ 255 ∧ b = [z].
Proof.
  unfold encodeWord8. destruct (_ || _ || _) eqn:E.
  - apply range_check in E. split; [done|].
    intros (z & Hz & Hr & _).
    rewrite (negative_represents v z), (exceeds_represents v z) in E by done.
    destruct E as [?|[Hni|?]]; [lia| |lia]. destruct Hni. by exists z.
  - apply range_check_in_range in E as (z & Hz & Hr). split.
    + intros [= <-]. exists z. rewrite (to_integer_represents v z) by done.
      by rewrite Z.mod_small by lia.
    + intros (z' & Hz' & _ & ->). rewrite (represents_inj v z' z) by done.
      rewrite (to_integer_represents v z) by done.
      by rewrite Z.mod_small by lia.
Qed.

Lemma encodeWord16_Err v :
  is_Err (encodeWord16 v) ↔ negative v ∨ ¬ integral v ∨ exceeds v (2 ^ 16 - 1).
Proof.
  rewrite <-range_check. unfold encodeWord16. change (2 ^ 16 - 1) with 65535.
  destruct (_ || _ || _); split; try done.
  - by eexists.
  - by intros [? [=]].
Qed.

Lemma encodeWord16_Ok v b :
  encodeWord16 v = Ok b →
  ∃ z, represents v z ∧ 0 ≤ z ≤ 65535 ∧ b = be_bytes 2 z
       ∧ length b = 2%nat ∧ be_value b = z.
Proof.
  unfold encodeWord16. destruct (_ || _ || _) eqn:E; [done|].
  apply range_check_in_range in E as (z & Hz & Hr). intros [= <-].
  exists z. rewrite (to_integer_represents v z) by done.
  split; [done|]. split; [lia|]. split; [done|].
  split; [apply length_be_bytes|]. apply (be_value_in_range 2). simpl. lia.
Qed.

Lemma encodeWord32_Err v :
  is_Err (encodeWord32 v) ↔ negative v ∨ ¬ integral v ∨ exceeds v (2 ^ 32 - 1).
Proof.
  rewrite <-range_check. unfold encodeWord32. change (2 ^ 32 - 1) with 4294967295.
  destruct (_ || _ || _); split; try done.
  - by eexists.
  - by intros [? [=]].
Qed.

Lemma encodeWord32_Ok v b :
  encodeWord32 v = Ok b →
  ∃ z, represents v z ∧ 0 ≤ z ≤ 4294967295 ∧ b = be_bytes 4 z
       ∧ length b = 4%nat ∧ be_value b = z.
Proof.
  unfold encodeWord32. destruct (_ || _ || _) eqn:E; [done|].
  apply range_check_in_range in E as (z & Hz & Hr). intros [= <-].
  exists z. rewrite (to_integer_represents v z) by done.
  split; [done|]. split; [lia|]. split; [done|].
  split; [apply length_be_bytes|]. apply (be_value_in_range 4). simpl. lia.
Qed.

Lemma encodeWord32_of_Z z :
  0 ≤ z ≤ 4294967295 → encodeWord32 (of_Z z) = Ok (be_bytes 4 z).
Proof.
  intros Hz. destruct (encodeWord32 (of_Z z)) as [b|e] eqn:E.
  - apply encodeWord32_Ok in E as (z' & Hz' & _ & -> & _).
    by rewrite (represents_inj _ _ _ Hz' (represents_of_Z z)).
  - assert (is_Err (encodeWord32 (of_Z z))) as He by by eexists.
    apply encodeWord32_Err in He.
    rewrite (negative_represents _ z), (exceeds_represents _ z) in He
      by apply represents_of_Z.
    destruct He as [?|[Hni|?]]; [lia| |lia].
    destruct Hni. exists z. apply represents_of_Z.
Qed.

Lemma encodeWord8_of_Z z :
  0 ≤ z ≤ 255 → encodeWord8 (of_Z z) = Ok [z].
Proof.
  intros Hz. apply encodeWord8_Ok. exists z. auto using represents_of_Z.
Qed.

(** [encodeWord64] accepts exactly the values in [0, 2^63 - 1]. *)
Lemma encodeWord64_Err value :
  is_Err (encodeWord64 value) ↔ value < 0 ∨ 2 ^ 63 - 1 < value.
Proof.
  unfold encodeWord64. change (2 ^ 63 - 1) with 9223372036854775807.
  destruct (_ || _) eqn:E.
  - apply orb_true_iff in E. split; [lia|]. by eexists.
  - apply orb_false_iff in E. split; [by intros [? [=]]|lia].
Qed.

Lemma encodeWord64_Ok value b :
  encodeWord64 value = Ok b ↔
  0 ≤ value ≤ 2 ^ 63 - 1 ∧ b = be_bytes 8 value.
Proof.
  unfold encodeWord64. change (2 ^ 63 - 1) with 9223372036854775807.
  destruct (_ || _) eqn:E.
  - apply orb_true_iff in E. split; [done|lia].
  - apply orb_false_iff in E. split; [intros [= <-]; split; [lia|done]|by intros [_ ->]].
Qed.

Lemma encodeWord64_be_value value b :
  encodeWord64 value = Ok b → length b = 8%nat ∧ be_value b = value.
Proof.
  intros [Hr ->]%encodeWord64_Ok. split; [apply length_be_bytes|].
  apply (be_value_in_range 8). simpl. lia.
Qed.

Example encodeWord8_256 : encodeWord8 (of_Z 256) = Err (InputNotUnsigned 16).
Proof. reflexivity. Qed.

Example encodeWord64_minus_1 : encodeWord64 (-1) = Err (InputNotUnsigned 64).
Proof. reflexivity. Qed.

Example encodeWord32_max :
  encodeWord32 (of_Z 4294967295) = Ok [255; 255; 255; 255].
Proof. reflexivity. Qed.

Example encodeWord16_half :
  encodeWord16 (Num (1 # 2)) = Err (InputNotUnsigned 16).
Proof. reflexivity. Qed.

(** C2 (the 64-bit encoder departs from the claim). [2^63] is an unsigned
    64-bit integer, not negative and not above [2^64 - 1], yet
    [encodeWord64] rejects it: the bound the code compares with is
    [2^63 - 1]. *)
Theorem encodeWord64_rejects_2_pow_63 :
  encodeWord64 (2 ^ 63) = Err (InputNotUnsigned 64)
  ∧ 0 ≤ 2 ^ 63 ≤ 2 ^ 64 - 1.
Proof. split; [reflexivity|lia]. Qed.

(** ** Objects *)

Section objects.
Context {T : Type}.
Implicit Types (m : NumRecord T) (k : PropertyKey) (t : T).

Lemma get_Some_elem_of m k t : get m k = Some t → (k, t) ∈ m.
Proof.
  induction m as [|[k' t'] m IH]; simpl; [done|].
  destruct (decide (k' = k)) as [->|].
  - intros [= ->]. left.
  - intros. right. auto.
Qed.

Lemma get_is_Some m k : k ∈ m.*1 → is_Some (get m k).
Proof.
  induction m as [|[k' t'] m IH]; simpl.
  - by intros ?%elem_of_nil.
  - destruct (decide (k' = k)); [by eexists|].
    intros [?|?]%elem_of_cons; [congruence|auto].
Qed.

Lemma get_wf m k t : wf m → (k, t) ∈ m → get m k = Some t.
Proof.
  unfold wf. induction m as [|[k' t'] m IH]; simpl.
  - by intros _ ?%elem_of_nil.
  - intros [Hk' Hm]%NoDup_cons [[= -> ->]|Hin]%elem_of_cons.
    + by rewrite decide_True.
    + rewrite decide_False; [auto|]. intros ->. apply Hk'.
      by apply (list_elem_of_fmap_2 fst) in Hin.
Qed.

Lemma wf_perm m m' : m' ≡ₚ m → wf m → wf m'.
Proof. unfold wf. by intros ->. Qed.

(** The value of a property does not depend on the creation order. *)
Lemma get_perm m m' k : wf m → m' ≡ₚ m → get m' k = get m k.
Proof.
  intros Hwf Hp. destruct (get m k) as [t|] eqn:E.
  - apply get_wf; [by eapply wf_perm|]. rewrite Hp. by apply get_Some_elem_of.
  - destruct (get m' k) as [t|] eqn:E'; [|done].
    apply get_Some_elem_of in E'. rewrite Hp in E'.
    apply get_wf in E'; [congruence|done].
Qed.

Lemma Object_keys_perm m : Object_keys m ≡ₚ m.*1.
Proof.
  unfold Object_keys. rewrite merge_sort_Permutation.
  apply filter_app_complement.
Qed.

Lemma length_Object_keys m : length (Object_keys m) = length m.
Proof. by rewrite Object_keys_perm, length_fmap. Qed.

(** Every key that [Object.keys] returns is an own property. *)
Lemma get_Object_keys m k : k ∈ Object_keys m → is_Some (get m k).
Proof. rewrite Object_keys_perm. apply get_is_Some. Qed.

Lemma filter_Forall {A} (P : A → Prop) `{∀ x, Decision (P x)} (l : list A) :
  Forall P l → filter P l = l ∧ filter (λ x, ¬ P x) l = [].
Proof.
  induction 1 as [|x l Hx _ [IH1 IH2]]; [done|].
  rewrite filter_cons_True, filter_cons_False by tauto.
  by rewrite IH1, IH2.
Qed.

(** When every key is an array index, the keys come in sorted order. *)
Lemma Object_keys_indices m :
  Forall is_array_index m.*1 → Object_keys m = merge_sort Z.le m.*1.
Proof.
  intros Hidx. unfold Object_keys.
  destruct (filter_Forall is_array_index _ Hidx) as [-> ->]. apply app_nil_r.
Qed.

Lemma StronglySorted_le_lt (l : list Z) :
  StronglySorted Z.le l → NoDup l → StronglySorted Z.lt l.
Proof.
  induction 1 as [|x l Hl IH Hx]; [constructor|].
  intros [Hni Hnd]%NoDup_cons. constructor; [auto|].
  rewrite Forall_forall in Hx |- *. intros y Hy.
  assert (x ≠ y) by (by intros ->). specialize (Hx y Hy). lia.
Qed.

Lemma Object_keys_sorted m :
  wf m → Forall is_array_index m.*1 → StronglySorted Z.lt (Object_keys m).
Proof.
  intros Hwf Hidx. apply StronglySorted_le_lt.
  - rewrite Object_keys_indices by done.
    apply StronglySorted_merge_sort; apply _.
  - by rewrite Object_keys_perm.
Qed.

(** ... and the order does not depend on the creation order. *)
Lemma Object_keys_perm_eq m m' :
  Forall is_array_index m.*1 → m' ≡ₚ m → Object_keys m' = Object_keys m.
Proof.
  intros Hidx Hp.
  rewrite !Object_keys_indices; [|done|by rewrite Hp].
  apply (Sorted_unique Z.le); [apply Sorted_merge_sort; apply _..|].
  by rewrite !merge_sort_Permutation, Hp.
Qed.

Lemma entries_in_order_keys m keys :
  Forall (λ k, k ∈ m.*1) keys → (entries_in_order m keys).*1 = keys.
Proof.
  unfold entries_in_order. induction 1 as [|k keys Hk _ IH]; [done|].
  destruct (get_is_Some m k Hk) as [t Ht]. cbn [omap list_omap]. rewrite Ht.
  cbn [fmap option_fmap option_map list_fmap fst]. f_equal. apply IH.
Qed.

Lemma entries_in_order_self m : wf m → entries_in_order m m.*1 = m.
Proof.
  unfold wf, entries_in_order. induction m as [|[k t] m IH]; [done|].
  intros [Hk Hm]%NoDup_cons. cbn [fmap list_fmap omap list_omap fst get].
  rewrite decide_True by done. simpl. f_equal.
  rewrite <-(IH Hm) at 2. apply list_omap_ext, Forall2_same_length_lookup_2; [done|].
  intros i k1 k2 H1 H2. assert (k1 = k2) as <- by congruence.
  rewrite decide_False; [done|]. intros ->. apply Hk.
  by eapply list_elem_of_lookup_2.
Qed.

Lemma entries_in_order_perm m keys :
  wf m → keys ≡ₚ m.*1 → entries_in_order m keys ≡ₚ m.
Proof.
  intros Hwf Hp. unfold entries_in_order. rewrite Hp.
  by rewrite <-(entries_in_order_self m Hwf) at 2.
Qed.

End objects.

(** ** The map encoder *)

Section map_encoder.
Context {T : Type}.
Variable encodeSize : number → result Buffer.
Variable encodeKey : PropertyKey → result Buffer.
Variable encodeValue : T → result Buffer.
Implicit Types (m : NumRecord T) (keys : list PropertyKey).

Lemma forEach_push_spec m keys buffers :
  Forall (λ k, k ∈ m.*1) keys →
  Buffer_concat <$> forEach_push m encodeKey encodeValue keys buffers
  = body ← spec_entries encodeKey encodeValue (entries_in_order m keys);
    Ok (Buffer_concat buffers ++ body).
Proof.
  intros Hkeys. revert buffers.
  induction Hkeys as [|key keys Hk _ IH]; intros buffers.
  - simpl. by rewrite app_nil_r.
  - destruct (get_is_Some m key Hk) as [t Ht].
    unfold entries_in_order. cbn [omap list_omap forEach_push]. rewrite Ht.
    cbn [fmap option_fmap option_map spec_entries]. unfold encodeValueAt. rewrite Ht.
    destruct (encodeKey key) as [kb|]; [|done].
    destruct (encodeValue t) as [vb|]; [|done].
    cbn [mbind result_bind]. rewrite IH. unfold entries_in_order.
    destruct (spec_entries _ _ _) as [tl|]; [|done]. simpl.
    unfold Buffer_concat. rewrite concat_app. simpl.
    by rewrite app_nil_r, <-!app_assoc.
Qed.

(** [serializeMap] lays the entries out as the specification says, in the
    order of [Object.keys]. *)
Lemma serializeMap_spec m :
  serializeMap m encodeSize encodeKey encodeValue
  = spec_encodeMap encodeSize encodeKey encodeValue
      (entries_in_order m (Object_keys m)).
Proof.
  assert (Forall (λ k, k ∈ m.*1) (Object_keys m)) as Hkeys.
  { apply Forall_forall. intros k. by rewrite Object_keys_perm. }
  unfold serializeMap, spec_encodeMap. cbv zeta.
  rewrite <-(length_fmap fst (entries_in_order _ _)), entries_in_order_keys by done.
  destruct (encodeSize _) as [size|]; [|done]. cbn [mbind result_bind].
  pose proof (forEach_push_spec m (Object_keys m) [size] Hkeys) as E.
  destruct (forEach_push _ _ _ _ _) as [buffers|e]; simpl in E |- *.
  - destruct (spec_entries _ _ _) as [body|]; [|done]. simpl in E.
    rewrite app_nil_r in E. by injection E as ->.
  - by destruct (spec_entries _ _ _).
Qed.

(** [serializeMap] reads the object only through [Object.keys] and
    property access. *)
Lemma forEach_push_ext m m' keys buffers :
  (∀ k, get m' k = get m k) →
  forEach_push m' encodeKey encodeValue keys buffers
  = forEach_push m encodeKey encodeValue keys buffers.
Proof.
  intros Hget. revert buffers. induction keys as [|key keys IH]; [done|].
  intros buffers. simpl. unfold encodeValueAt. rewrite Hget.
  destruct (encodeKey key); [|done]. simpl.
  destruct (match get m key with Some t => _ | None => _ end); [|done].
  simpl. apply IH.
Qed.

Lemma serializeMap_perm m m' :
  wf m → Forall is_array_index m.*1 → m' ≡ₚ m →
  serializeMap m' encodeSize encodeKey encodeValue
  = serializeMap m encodeSize encodeKey encodeValue.
Proof.
  intros Hwf Hidx Hp. unfold serializeMap. cbv zeta.
  rewrite (Object_keys_perm_eq m m') by done.
  destruct (encodeSize _); [|done]. simpl.
  by rewrite (forEach_push_ext m m') by (intros; by apply get_perm).
Qed.

(** The empty object encodes as its count alone. *)
Lemma serializeMap_empty :
  serializeMap [] encodeSize encodeKey encodeValue = encodeSize (of_Z 0).
Proof.
  unfold serializeMap. simpl. change (of_nat 0) with (of_Z 0).
  destruct (encodeSize _); [|done]. simpl. by rewrite app_nil_r.
Qed.

End map_encoder.

(** When the keys are encoded on one byte and the encoding succeeds, every
    key is a byte, hence an array index. *)
Lemma forEach_push_Ok_keys {T} (m : NumRecord T) encodeKey encodeValue
    keys buffers out :
  forEach_push m encodeKey encodeValue keys buffers = Ok out →
  Forall (λ k, is_Ok (encodeKey k)) keys.
Proof.
  revert buffers. induction keys as [|key keys IH]; intros buffers; [done|].
  simpl. destruct (encodeKey key) as [kb|] eqn:Ek; [|done]. simpl.
  destruct (encodeValueAt _ _ _) as [vb|]; [|done]. simpl.
  intros Hrest. constructor; [by eexists|by eapply IH].
Qed.

Lemma serializeMap_byte_keys {T} (m : NumRecord T) encodeSize encodeValue out :
  serializeMap m encodeSize encodeWord8FromString encodeValue = Ok out →
  Forall is_array_index m.*1.
Proof.
  unfold serializeMap. cbv zeta. intros Hout. inv_Ok Hout.
  apply forEach_push_Ok_keys in E0. rewrite Object_keys_perm in E0.
  eapply Forall_impl; [exact E0|]. intros k [kb Hk].
  apply encodeWord8_Ok in Hk as (z & Hz & Hr & _).
  apply (represents_inj _ _ _ (represents_of_Z k)) in Hz as <-.
  unfold is_array_index. lia.
Qed.

(** C1 (amended). For an object whose keys are array indices (non-negative integers
    below [2^32 - 1], among them every key a single byte can hold),
    [serializeMap] yields the encoded entry count followed by the encoding
    of each key and of its value, the entries being those of the object in
    strictly ascending order of their keys; the output is the same for
    every order of creation of the entries. *)
Theorem serializeMap_ascending {T} (m : NumRecord T)
    (encodeSize : number → result Buffer)
    (encodeKey : PropertyKey → result Buffer)
    (encodeValue : T → result Buffer) :
  wf m →
  Forall is_array_index m.*1 →
  ∃ entries,
    entries ≡ₚ m
    ∧ StronglySorted Z.lt entries.*1
    ∧ serializeMap m encodeSize encodeKey encodeValue
      = spec_encodeMap encodeSize encodeKey encodeValue entries
    ∧ ∀ m', m' ≡ₚ m →
        serializeMap m' encodeSize encodeKey encodeValue
        = serializeMap m encodeSize encodeKey encodeValue.
Proof.
  intros Hwf Hidx. exists (entries_in_order m (Object_keys m)).
  split; [|split; [|split]].
  - apply entries_in_order_perm; [done|apply Object_keys_perm].
  - rewrite entries_in_order_keys; [by apply Object_keys_sorted|].
    apply Forall_forall. intros k. by rewrite Object_keys_perm.
  - apply serializeMap_spec.
  - intros m' Hp. by apply serializeMap_perm.
Qed.

(** An error of [serializeMap] is an error of one of its encoders: the
    access to a missing property never happens. *)
Lemma forEach_push_Err {T} (m : NumRecord T) encodeKey encodeValue keys buffers e :
  Forall (λ k, k ∈ m.*1) keys →
  forEach_push m encodeKey encodeValue keys buffers = Err e →
  (∃ k, encodeKey k = Err e) ∨ (∃ t, encodeValue t = Err e).
Proof.
  intros Hkeys. revert buffers.
  induction Hkeys as [|key keys Hk _ IH]; intros buffers; [done|].
  destruct (get_is_Some m key Hk) as [t Ht]. simpl.
  unfold encodeValueAt. rewrite Ht.
  destruct (encodeKey key) eqn:Ek; simpl; [|intros [= <-]; eauto].
  destruct (encodeValue t) eqn:Ev; simpl; [|intros [= <-]; eauto].
  apply IH.
Qed.

Lemma serializeMap_Err {T} (m : NumRecord T) encodeSize encodeKey encodeValue e :
  serializeMap m encodeSize encodeKey encodeValue = Err e →
  (∃ n, encodeSize n = Err e) ∨ (∃ k, encodeKey k = Err e)
  ∨ (∃ t, encodeValue t = Err e).
Proof.
  unfold serializeMap. cbv zeta.
  destruct (encodeSize _) eqn:Es; simpl; [|intros [= <-]; eauto].
  destruct (forEach_push _ _ _ _ _) eqn:Ef; simpl; [done|].
  intros [= <-]. right. eapply forEach_push_Err; [|done].
  apply Forall_forall. intros k. by rewrite Object_keys_perm.
Qed.

(** ** Hexadecimal strings *)

Lemma writeUInt16BE_be_bytes value :
  0 ≤ value ≤ 65535 → writeUInt16BE value = Ok (be_bytes 2 value).
Proof.
  intros Hv. unfold writeUInt16BE.
  destruct (_ || _) eqn:E; [apply orb_true_iff in E; lia|done].
Qed.

Lemma writeUInt16BE_Err value e :
  writeUInt16BE value = Err e → e = ValueOutOfBounds ∧ ¬ 0 ≤ value ≤ 65535.
Proof.
  unfold writeUInt16BE. destruct (_ || _) eqn:E; [|done].
  apply orb_true_iff in E. intros [= <-]. split; [done|lia].
Qed.

(** [putSignature] writes the count of decoded bytes on 16 bits, most
    significant byte first, then the decoded bytes; it fails only when
    more than 65535 bytes were decoded. *)
Lemma putSignature_spec signature :
  putSignature signature
  = if decide (Z.of_nat (length (Buffer_from_hex signature)) ≤ 65535)
    then Ok (be_bytes 2 (Z.of_nat (length (Buffer_from_hex signature)))
             ++ Buffer_from_hex signature)
    else Err ValueOutOfBounds.
Proof.
  unfold putSignature. cbv zeta. case_decide as Hlen.
  - rewrite writeUInt16BE_be_bytes by lia. simpl. by rewrite app_nil_r.
  - destruct (writeUInt16BE _) as [b|e] eqn:E.
    + unfold writeUInt16BE in E. destruct (_ || _) eqn:E'; [done|].
      apply orb_false_iff in E'. lia.
    + by apply writeUInt16BE_Err in E as [-> _].
Qed.

Lemma string_pair_ind (P : string → Prop) :
  P EmptyString →
  (∀ a, P (String a EmptyString)) →
  (∀ a b s, P s → P (String a (String b s))) →
  ∀ s, P s.
Proof.
  intros H0 H1 H2. fix IH 1.
  intros [|a [|b s]]; [exact H0|apply H1|apply H2, IH].
Qed.

Lemma elem_of_all_ascii a : a ∈ all_ascii.
Proof.
  rewrite <-(ascii_nat_embedding a). apply list_elem_of_fmap_2, elem_of_seq.
  pose proof (nat_ascii_bounded a). lia.
Qed.

(** [parseInt(group, 16)] on every group of two characters, by running it
    on each of them. *)
Lemma parseInt16_group a b :
  parseInt16 (String a (String b EmptyString)) = group_value a b.
Proof.
  assert (Forall (λ a, Forall (λ b,
    parseInt16 (String a (String b EmptyString)) = group_value a b)
    all_ascii) all_ascii) as Hall.
  { apply (bool_decide_unpack _). vm_compute. exact I. }
  rewrite Forall_forall in Hall.
  specialize (Hall a (elem_of_all_ascii a)). rewrite Forall_forall in Hall.
  apply Hall, elem_of_all_ascii.
Qed.

Lemma hex_digit_range a h : hex_digit a = Some h → 0 ≤ h < 16.
Proof.
  unfold hex_digit. repeat case_match; intros [= <-]; lia.
Qed.

(** A group of two digits reads as its value. *)
Lemma parseInt16_digits a b h l :
  hex_digit a = Some h → hex_digit b = Some l →
  parseInt16 (String a (String b EmptyString)) = Some (16 * h + l).
Proof. intros Ha Hb. by rewrite parseInt16_group; unfold group_value; rewrite Ha, Hb. Qed.

(** A group that starts with a character that is neither a digit, a sign
    nor white space reads as [NaN]. *)
Lemma parseInt16_NaN a b :
  hex_digit a = None → is_white_space a = false →
  a ≠ "+"%char → a ≠ "-"%char →
  parseInt16 (String a (String b EmptyString)) = None.
Proof.
  intros Ha Hw Hp Hm. rewrite parseInt16_group. unfold group_value.
  rewrite Ha, Hw. destruct (hex_digit b); [|done].
  by rewrite !decide_False by done.
Qed.

(** A digit followed by a character that is not a digit reads as the digit
    alone, unless the group is a [0x] prefix. *)
Lemma parseInt16_digit_then_other a b h :
  hex_digit a = Some h → hex_digit b = None →
  ¬ (a = "0"%char ∧ (b = "x"%char ∨ b = "X"%char)) →
  parseInt16 (String a (String b EmptyString)) = Some h.
Proof.
  intros Ha Hb Hx. rewrite parseInt16_group. unfold group_value.
  rewrite Ha, Hb. by rewrite decide_False by done.
Qed.

(** On an even number of digits [Buffer.from(s, 'hex')] yields the bytes
    the digits denote, one for every two characters. *)
Lemma hexWrite_valid s b :
  spec_hex_decode s = Some b →
  hexWrite s = b ∧ String.length s = (2 * length b)%nat.
Proof.
  revert b. induction s as [|a|a c s IH] using string_pair_ind; intros b.
  - by intros [= <-].
  - done.
  - cbn [spec_hex_decode hexWrite].
    destruct (hex_digit a) as [h|] eqn:Ha; [|done].
    destruct (hex_digit c) as [l|] eqn:Hc; [|done]. cbn [mbind option_bind].
    destruct (spec_hex_decode s) as [tl|]; [|done]. intros [= <-].
    destruct (IH tl eq_refl) as [-> Hlen].
    rewrite (parseInt16_digits a c h l) by done.
    apply hex_digit_range in Ha, Hc.
    rewrite Z.mod_small by lia. split; [done|]. simpl. lia.
Qed.

(** Decoding stops, without an error, at the first group that reads as
    [NaN]: what precedes it is decoded, what follows is ignored. *)
Lemma hexWrite_stop s b group rest :
  spec_hex_decode s = Some b →
  String.length group = 2%nat →
  parseInt16 group = None →
  hexWrite (s +:+ group +:+ rest) = b.
Proof.
  intros Hs Hlen Hnan. revert b Hs.
  induction s as [|a|a c s IH] using string_pair_ind; intros b.
  - intros [= <-]. destruct group as [|a [|c [|]]]; try done.
    simpl. by rewrite Hnan.
  - done.
  - cbn [spec_hex_decode].
    destruct (hex_digit a) as [h|] eqn:Ha; [|done].
    destruct (hex_digit c) as [l|] eqn:Hc; [|done]. cbn [mbind option_bind].
    destruct (spec_hex_decode s) as [tl|]; [|done]. intros [= <-].
    change (hexWrite (String a (String c (s +:+ group +:+ rest)))
            = 16 * h + l :: tl).
    cbn [hexWrite]. rewrite (parseInt16_digits a c h l) by done.
    apply hex_digit_range in Ha, Hc.
    rewrite Z.mod_small by lia. f_equal. by apply IH.
Qed.

Lemma bytes_hexWrite s : bytes (hexWrite s).
Proof.
  induction s as [|a|a c s IH] using string_pair_ind; try by constructor.
  cbn [hexWrite]. destruct (parseInt16 _); constructor; [|done].
  apply Z.mod_pos_bound. lia.
Qed.

(** [toString('hex')] is read back by [Buffer.from(.., 'hex')]. *)
Lemma hex_digit_hex_char d : 0 ≤ d < 16 → hex_digit (hex_char d) = Some d.
Proof.
  intros Hd.
  assert (d ∈ [0; 1; 2; 3; 4; 5; 6; 7; 8; 9; 10; 11; 12; 13; 14; 15]) as Hin.
  { rewrite !elem_of_cons. lia. }
  rewrite !elem_of_cons, elem_of_nil in Hin.
  destruct_or!; subst; done.
Qed.

Lemma spec_hex_decode_toString_hex b :
  bytes b → spec_hex_decode (toString_hex b) = Some b.
Proof.
  induction 1 as [|x b Hx _ IH]; [done|]. cbn [toString_hex spec_hex_decode].
  rewrite !hex_digit_hex_char, IH.
  - cbn [mbind option_bind]. do 2 f_equal. symmetry. apply Z.div_mod. lia.
  - split; [apply Z.div_pos; lia|apply Z.div_lt_upper_bound; lia].
  - apply Z.mod_pos_bound. lia.
Qed.

Lemma Buffer_from_hex_toString_hex b :
  bytes b → Buffer_from_hex (toString_hex b) = b.
Proof. intros Hb. by apply hexWrite_valid, spec_hex_decode_toString_hex. Qed.

Lemma length_toString_hex b : String.length (toString_hex b) = (2 * length b)%nat.
Proof. induction b as [|x b IH]; simpl; lia. Qed.

(** ** The signature block *)

Lemma encodeWord8_Err_eq v e : encodeWord8 v = Err e → e = InputNotUnsigned 16.
Proof. unfold encodeWord8. by destruct (_ || _ || _); intros [= <-]. Qed.

Lemma putSignature_Err signature e :
  putSignature signature = Err e → e = ValueOutOfBounds.
Proof. rewrite putSignature_spec. by case_decide; intros [= <-]. Qed.

Lemma putCredentialSignatures_Err credSig e :
  putCredentialSignatures credSig = Err e →
  e = InputNotUnsigned 16 ∨ e = ValueOutOfBounds.
Proof.
  intros [[n He]|[[k He]|[t He]]]%serializeMap_Err.
  - left. by eapply encodeWord8_Err_eq.
  - left. by eapply encodeWord8_Err_eq.
  - right. by eapply putSignature_Err.
Qed.

(** A credential without keys encodes as the count 0. *)
Lemma putCredentialSignatures_empty : putCredentialSignatures [] = Ok [0].
Proof. reflexivity. Qed.

Example signature_set_2_0_1 :
  serializeAccountTransactionSignature
    [(2, [(0, "cc")]); (0, [(0, "aa")]); (1, [(0, "bb")])]
  = Ok [3; 0; 1; 0; 0; 1; 170; 1; 1; 0; 0; 1; 187; 2; 1; 0; 0; 1; 204].
Proof. vm_compute. reflexivity. Qed.

(** C1, at the signature set with credential keys 2, 0, 1 created in that
    order. *)
Lemma serializeMap_ascending_witness :
  ∃ entries,
    entries ≡ₚ [(2, [(0, "cc")]); (0, [(0, "aa")]); (1, [(0, "bb")])]
    ∧ StronglySorted Z.lt entries.*1
    ∧ serializeMap [(2, [(0, "cc")]); (0, [(0, "aa")]); (1, [(0, "bb")])]
        encodeWord8 encodeWord8FromString putCredentialSignatures
      = spec_encodeMap encodeWord8 encodeWord8FromString
          putCredentialSignatures entries
    ∧ ∀ m', m' ≡ₚ [(2, [(0, "cc")]); (0, [(0, "aa")]); (1, [(0, "bb")])] →
        serializeMap m' encodeWord8 encodeWord8FromString
          putCredentialSignatures
        = serializeMap [(2, [(0, "cc")]); (0, [(0, "aa")]); (1, [(0, "bb")])]
            encodeWord8 encodeWord8FromString putCredentialSignatures.
Proof.
  apply (serializeMap_ascending
           [(2, [(0, "cc"%string)]); (0, [(0, "aa"%string)]);
            (1, [(0, "bb"%string)])]).
  - unfold wf. apply (bool_decide_unpack _). vm_compute. exact I.
  - apply (bool_decide_unpack _). vm_compute. exact I.
Defined.

(** C1 as stated fails: keys that are not array indices keep their order of
    creation. With 64-bit keys above the range of array indices, the entry
    of key [2^32 + 1] created first is emitted first, and creating the
    entries in the other order changes the output; negative keys are
    enumerated as created as well. *)
Lemma serializeMap_creation_order :
  serializeMap [(4294967297, "bb"); (4294967296, "aa")]
    encodeWord8 encodeWord64 putSignature
  = Ok ([2] ++ ([0; 0; 0; 1; 0; 0; 0; 1] ++ [0; 1; 187])
            ++ ([0; 0; 0; 1; 0; 0; 0; 0] ++ [0; 1; 170]))
  ∧ serializeMap [(4294967296, "aa"); (4294967297, "bb")]
      encodeWord8 encodeWord64 putSignature
    = Ok ([2] ++ ([0; 0; 0; 1; 0; 0; 0; 0] ++ [0; 1; 170])
              ++ ([0; 0; 0; 1; 0; 0; 0; 1] ++ [0; 1; 187]))
  ∧ Object_keys [(-1, "bb"); (-2, "aa")] = [-1; -2].
Proof. split; [|split]; reflexivity. Qed.

Example Object_keys_order :
  Object_keys [(7, "a"); (-1, "b"); (3, "c"); (4294967295, "d"); (0, "e")]
  = [0; 3; 7; -1; 4294967295].
Proof. reflexivity. Qed.

(** The guard of [serializeAccountTransactionSignature]: the error "No
    signatures were provided" is raised exactly on the signature set that
    has no credential entry. *)
Theorem serializeAccountTransactionSignature_empty
    (signatures : AccountTransactionSignature) :
  serializeAccountTransactionSignature signatures = Err NoSignaturesProvided
  ↔ signatures = [].
Proof.
  unfold serializeAccountTransactionSignature. rewrite length_Object_keys.
  case_decide as Hlen.
  - split; [|done]. intros _. by destruct signatures.
  - split; [|by intros ->].
    intros [[n He]|[[k He]|[t He]]]%serializeMap_Err.
    + by apply encodeWord8_Err_eq in He.
    + by apply encodeWord8_Err_eq in He.
    + by apply putCredentialSignatures_Err in He as [|].
Qed.

(** C3 (the guard departs from the claim). The set [{0: {}}] has one
    credential entry and no key entry: it provides no signature, yet
    [serializeAccountTransactionSignature] raises no error and returns the
    bytes [01 00 00]. *)
Lemma serializeAccountTransactionSignature_no_keys :
  serializeAccountTransactionSignature [(0, [])] = Ok [1; 0; 0]
  ∧ Forall (λ cred, cred.2 = []) [(0, @nil (PropertyKey * string))].
Proof. split; [reflexivity|by repeat constructor]. Qed.

(** After an even number of digits, the next group of two characters
    either reads as [NaN], and decoding stops there, or is stored as one
    byte, and decoding goes on with what follows. *)
Lemma hexWrite_group s b a c rest :
  spec_hex_decode s = Some b →
  hexWrite (s +:+ String a (String c rest))
  = b ++ match group_value a c with
         | Some v => v `mod` 256 :: hexWrite rest
         | None => []
         end.
Proof.
  revert b. induction s as [|a0|a1 a2 s IH] using string_pair_ind; intros b.
  - intros [= <-].
    change (hexWrite (String a (String c rest))
            = match group_value a c with
              | Some v => v `mod` 256 :: hexWrite rest
              | None => []
              end).
    cbn [hexWrite]. by rewrite parseInt16_group.
  - done.
  - cbn [spec_hex_decode].
    destruct (hex_digit a1) as [h|] eqn:Ha; [|done].
    destruct (hex_digit a2) as [l|] eqn:Hc; [|done]. cbn [mbind option_bind].
    destruct (spec_hex_decode s) as [tl|]; [|done]. intros [= <-].
    change (hexWrite (String a1 (String a2 (s +:+ String a (String c rest))))
            = (16 * h + l :: tl) ++ match group_value a c with
                                    | Some v => v `mod` 256 :: hexWrite rest
                                    | None => []
                                    end).
    cbn [hexWrite]. rewrite (parseInt16_digits a1 a2 h l) by done.
    apply hex_digit_range in Ha, Hc.
    rewrite Z.mod_small by lia. cbn [app]. f_equal. by apply IH.
Qed.

(** The groups that read as [NaN]: those whose first character is not a
    digit, unless it is white space or a sign and a digit follows; and the
    groups [0x] and [0X]. *)
Lemma group_value_None a c :
  group_value a c = None
  ↔ (hex_digit a = None
     ∧ ¬ ((is_white_space a = true ∨ a = "+"%char ∨ a = "-"%char)
          ∧ is_Some (hex_digit c)))
    ∨ (a = "0"%char ∧ (c = "x"%char ∨ c = "X"%char)).
Proof.
  unfold group_value. split.
  - destruct (hex_digit a) as [h|] eqn:Ha, (hex_digit c) as [l|] eqn:Hc.
    + done.
    + case_decide; [by right|done].
    + destruct (is_white_space a) eqn:Hw; [done|].
      case_decide; [done|]. case_decide; [done|]. intros _. left.
      split; [done|]. by intros [[?|[?|?]] _].
    + intros _. left. split; [done|]. by intros [_ [? ?]].
  - intros [[Ha Hn]|[-> Hc]].
    + rewrite Ha. destruct (hex_digit c) as [l|]; [|done].
      destruct (is_white_space a) eqn:Hw; [destruct Hn; eauto|].
      case_decide; [destruct Hn; eauto|].
      case_decide; [destruct Hn; eauto|done].
    + by destruct Hc as [-> | ->].
Qed.

(** C10 (amended). [putSignature] takes the signature as a hexadecimal
    string: it writes the count of decoded bytes on 16 bits, most
    significant byte first, then the decoded bytes, and the one error it
    raises is that of the length when more than 65535 bytes were decoded.
    An even number of digits decodes to one byte for every two
    characters. Characters that are not digits raise no error: the string
    is read in groups of two characters by [parseInt(group, 16)], whose
    result is [group_value]; decoding stops at the first group that reads
    as [NaN], so that the signature is truncated there; these groups are
    those whose first character is not a digit (unless it is white space
    or a sign and a digit follows) and the groups [0x] and [0X]. Every
    other group is stored as one byte, modulo 256, and decoding goes on:
    two digits give their value; a digit and a character that is not a
    digit give the digit; white space or [+] and a digit give the digit;
    [-] and a digit give its opposite. *)
Theorem putSignature_hex :
  (∀ signature,
     putSignature signature
     = if decide (Z.of_nat (length (Buffer_from_hex signature)) ≤ 65535)
       then Ok (be_bytes 2 (Z.of_nat (length (Buffer_from_hex signature)))
                ++ Buffer_from_hex signature)
       else Err ValueOutOfBounds)
  ∧ (∀ s b, spec_hex_decode s = Some b →
       Buffer_from_hex s = b ∧ String.length s = (2 * length b)%nat)
  ∧ (∀ s b group rest,
       spec_hex_decode s = Some b →
       String.length group = 2%nat →
       parseInt16 group = None →
       Buffer_from_hex (s +:+ group +:+ rest) = b)
  ∧ (∀ a b, parseInt16 (String a (String b EmptyString)) = group_value a b)
  ∧ (∀ s b a c rest,
       spec_hex_decode s = Some b →
       Buffer_from_hex (s +:+ String a (String c rest))
       = b ++ match group_value a c with
              | Some v => v `mod` 256 :: Buffer_from_hex rest
              | None => []
              end)
  ∧ (∀ a c,
       group_value a c = None
       ↔ (hex_digit a = None
          ∧ ¬ ((is_white_space a = true ∨ a = "+"%char ∨ a = "-"%char)
               ∧ is_Some (hex_digit c)))
         ∨ (a = "0"%char ∧ (c = "x"%char ∨ c = "X"%char)))
  ∧ (∀ a c h l, hex_digit a = Some h → hex_digit c = Some l →
       group_value a c = Some (16 * h + l))
  ∧ (∀ a c h, hex_digit a = Some h → hex_digit c = None →
       ¬ (a = "0"%char ∧ (c = "x"%char ∨ c = "X"%char)) →
       group_value a c = Some h)
  ∧ (∀ a c l, hex_digit a = None → hex_digit c = Some l →
       (is_white_space a = true ∨ a = "+"%char → group_value a c = Some l)
       ∧ (a = "-"%char → group_value a c = Some (- l))).
Proof.
  split; [apply putSignature_spec|].
  split; [apply hexWrite_valid|].
  split; [apply hexWrite_stop|]. split; [apply parseInt16_group|].
  split; [apply hexWrite_group|]. split; [apply group_value_None|].
  split; [|split].
  - intros a c h l Ha Hc. unfold group_value. by rewrite Ha, Hc.
  - intros a c h Ha Hc Hx. unfold group_value. rewrite Ha, Hc.
    by rewrite decide_False.
  - intros a c l Ha Hc. unfold group_value. rewrite Ha, Hc. split.
    + intros [-> | ->]; [done|]. by destruct (is_white_space "+").
    + intros ->. reflexivity.
Qed.

(** C10, on a valid signature, on one that is cut at an invalid group, on
    one that is cut at the group [0x], and on one that goes on after a
    digit followed by another character. *)
Lemma putSignature_hex_witness :
  putSignature "aabb" = Ok [0; 2; 170; 187]
  ∧ Buffer_from_hex "aabb" = [170; 187]
  ∧ Buffer_from_hex ("aabb" +:+ "zz" +:+ "cc") = [170; 187]
  ∧ Buffer_from_hex ("aa" +:+ String "0" (String "x" "bb")) = [170] ++ []
  ∧ Buffer_from_hex ("aa" +:+ String "a" (String "?" "bb"))
    = [170] ++ 10 `mod` 256 :: Buffer_from_hex "bb".
Proof.
  destruct putSignature_hex as (H1 & H2 & H3 & _ & H5 & _).
  split; [|split; [|split; [|split]]].
  - rewrite H1. reflexivity.
  - apply (H2 "aabb"%string). reflexivity.
  - apply H3; reflexivity.
  - apply (H5 "aa"%string [170] "0"%char "x"%char). reflexivity.
  - apply (H5 "aa"%string [170] "a"%char "?"%char). reflexivity.
Defined.

(** C10 as stated fails: the string below holds a character that is not a
    hexadecimal digit, and is decoded to as many bytes as it has groups:
    nothing is cut. *)
Lemma putSignature_not_truncated :
  putSignature "a?bb" = Ok [0; 2; 10; 187]
  ∧ hex_digit "?" = None
  ∧ Z.of_nat (String.length "a?bb") = 2 * 2.
Proof. split; [|split]; reflexivity. Qed.

(** ** Transactions *)

Section transactions.
Context `{Imports}.
Implicit Types (tx : AccountTransaction) (sigs : AccountTransactionSignature).

Lemma encode_kind :
  encodeWord8 (of_Z AccountTransactionKind) = Ok [AccountTransactionKind].
Proof. apply encodeWord8_of_Z. pose proof AccountTransactionKind_byte. lia. Qed.

Lemma length_serializeAccountTransactionType t :
  length (serializeAccountTransactionType t) = 1%nat.
Proof. done. Qed.

(** The header is the sender followed by four big-endian fields. *)
Lemma serializeAccountTransactionHeader_Ok hd payloadSize energyAmount b :
  serializeAccountTransactionHeader hd payloadSize energyAmount = Ok b →
  ∃ size,
    represents payloadSize size
    ∧ 0 ≤ nonce hd ≤ 2 ^ 63 - 1
    ∧ 0 ≤ energyAmount ≤ 2 ^ 63 - 1
    ∧ 0 ≤ size ≤ 4294967295
    ∧ 0 ≤ expiryEpochSeconds (expiry hd) ≤ 2 ^ 63 - 1
    ∧ b = decodedAddress (sender hd) ++ be_bytes 8 (nonce hd)
          ++ be_bytes 8 energyAmount ++ be_bytes 4 size
          ++ be_bytes 8 (expiryEpochSeconds (expiry hd)).
Proof.
  unfold serializeAccountTransactionHeader. cbv zeta. intros Hb. inv_Ok Hb.
  apply encodeWord64_Ok in E as [? ->]. apply encodeWord64_Ok in E0 as [? ->].
  apply encodeWord32_Ok in E1 as (size & ? & ? & -> & _).
  apply encodeWord64_Ok in E2 as [? ->]. apply Ok_inj in Hb as <-.
  exists size. repeat (split; [done|]).
  unfold Buffer_concat. cbn [concat]. by rewrite app_nil_r.
Qed.

(** A transaction that is assembled went through every step, and its bytes
    are the kind tag, the signature block, the header, the type tag and
    the payload. *)
Lemma serializeAccountTransaction_Ok tx sigs out :
  serializeAccountTransaction tx sigs = Ok out →
  ∃ sigBytes handler payloadBytes base count energy headerBytes,
    serializeAccountTransactionSignature sigs = Ok sigBytes
    ∧ getAccountTransactionHandler (type tx) = Ok handler
    ∧ serialize handler (payload tx) = Ok payloadBytes
    ∧ getBaseEnergyCost handler (payload tx) = Ok base
    ∧ countSignatures sigs = Ok count
    ∧ calculateEnergyCost count (Z.of_nat (length payloadBytes + 1)) base
      = Ok energy
    ∧ serializeAccountTransactionHeader (header tx)
        (of_nat (length payloadBytes + 1)) energy = Ok headerBytes
    ∧ out = [AccountTransactionKind] ++ sigBytes ++ headerBytes
            ++ serializeAccountTransactionType (type tx) ++ payloadBytes.
Proof.
  unfold serializeAccountTransaction. rewrite encode_kind.
  cbn [mbind result_bind]. intros Hout. inv_Ok Hout. apply Ok_inj in Hout as <-.
  eexists _, _, _, _, _, _, _. repeat (split; [eassumption|]).
  unfold Buffer_concat. cbn [concat]. by rewrite app_nil_r.
Qed.

(** C4. In the bytes of an assembled transaction the header is the sender
    bytes, the nonce on 8 bytes, the energy on 8 bytes, the payload size on
    4 bytes and the expiry on 8 bytes, each most significant byte first;
    the payload size is the length of the type tag plus the length of the
    serialized payload, that is, the length of the payload plus 1. *)
Theorem header_layout tx sigs out :
  serializeAccountTransaction tx sigs = Ok out →
  ∃ sigBytes payloadBytes energy,
    let typeByte := serializeAccountTransactionType (type tx) in
    let nonceField := be_bytes 8 (nonce (header tx)) in
    let energyField := be_bytes 8 energy in
    let sizeField :=
      be_bytes 4 (Z.of_nat (length typeByte + length payloadBytes)) in
    let expiryField := be_bytes 8 (expiryEpochSeconds (expiry (header tx))) in
    (getAccountTransactionHandler (type tx)
       ≫= λ handler, serialize handler (payload tx)) = Ok payloadBytes
    ∧ out = [AccountTransactionKind] ++ sigBytes
            ++ (decodedAddress (sender (header tx)) ++ nonceField
                ++ energyField ++ sizeField ++ expiryField)
            ++ typeByte ++ payloadBytes
    ∧ be_value nonceField = nonce (header tx)
    ∧ be_value energyField = energy
    ∧ be_value sizeField = Z.of_nat (length payloadBytes) + 1
    ∧ be_value expiryField = expiryEpochSeconds (expiry (header tx)).
Proof.
  intros (sigBytes & handler & payloadBytes & base & count & energy
          & headerBytes & Hs & Hh & Hp & Hb & Hc & He & Hhd & ->)
    %serializeAccountTransaction_Ok.
  apply serializeAccountTransactionHeader_Ok in Hhd
    as (size & Hsize & Hn & Hen & Hsz & Hex & ->).
  apply (represents_inj _ _ _ (represents_of_Z _)) in Hsize as <-.
  exists sigBytes, payloadBytes, energy. cbv zeta.
  rewrite length_serializeAccountTransactionType.
  replace (Z.of_nat (1 + length payloadBytes))
    with (Z.of_nat (length payloadBytes + 1)) by lia.
  split; [by rewrite Hh|]. split; [done|].
  split; [apply (be_value_in_range 8); simpl; lia|].
  split; [apply (be_value_in_range 8); simpl; lia|].
  split; [|apply (be_value_in_range 8); simpl; lia].
  rewrite (be_value_in_range 4) by (simpl; lia). lia.
Qed.

(** C5. The signing digest is the hash of the header, the type tag and the
    payload, the header being computed with the assumed signature count
    (1 when none is given). The function takes no signature set; for every
    signature set of that count with which the transaction is assembled,
    the hashed bytes are the assembled bytes without the kind tag and the
    signature block. *)
Theorem sign_digest tx signatureCount :
  (∀ digest,
     getAccountTransactionSignDigest tx signatureCount = Ok digest →
     ∃ handler payloadBytes base energy headerBytes,
       getAccountTransactionHandler (type tx) = Ok handler
       ∧ serialize handler (payload tx) = Ok payloadBytes
       ∧ getBaseEnergyCost handler (payload tx) = Ok base
       ∧ calculateEnergyCost (default 1 signatureCount)
           (Z.of_nat (length payloadBytes + 1)) base = Ok energy
       ∧ serializeAccountTransactionHeader (header tx)
           (of_nat (length payloadBytes + 1)) energy = Ok headerBytes
       ∧ digest = sha256 [headerBytes;
                          serializeAccountTransactionType (type tx);
                          payloadBytes])
  ∧ (∀ sigs out,
       serializeAccountTransaction tx sigs = Ok out →
       countSignatures sigs = Ok (default 1 signatureCount) →
       ∃ sigBytes headerBytes payloadBytes,
         serializeAccountTransactionSignature sigs = Ok sigBytes
         ∧ out = [AccountTransactionKind] ++ sigBytes ++ headerBytes
                 ++ serializeAccountTransactionType (type tx) ++ payloadBytes
         ∧ getAccountTransactionSignDigest tx signatureCount
           = Ok (sha256 [headerBytes;
                         serializeAccountTransactionType (type tx);
                         payloadBytes])).
Proof.
  split.
  - intros digest Hd. unfold getAccountTransactionSignDigest in Hd.
    cbv zeta in Hd. inv_Ok Hd. apply Ok_inj in Hd as <-.
    eexists _, _, _, _, _. by repeat (split; [eassumption|]).
  - intros sigs out
      (sigBytes & handler & payloadBytes & base & count & energy
       & headerBytes & Hs & Hh & Hp & Hb & Hc & He & Hhd & ->)
      %serializeAccountTransaction_Ok Hcount.
    rewrite Hc in Hcount. injection Hcount as ->.
    exists sigBytes, headerBytes, payloadBytes. split; [done|]. split; [done|].
    unfold getAccountTransactionSignDigest. cbv zeta.
    rewrite Hh. cbn [mbind result_bind]. rewrite Hp. cbn [mbind result_bind].
    rewrite Hb. cbn [mbind result_bind]. rewrite He. cbn [mbind result_bind].
    by rewrite Hhd.
Qed.

(** C7. The submission envelope of a transaction that can be assembled is
    the byte 0 followed by the assembled bytes. *)
Theorem submission_envelope tx sigs out :
  serializeAccountTransaction tx sigs = Ok out →
  ∃ envelope,
    serializeAccountTransactionForSubmission tx sigs = Ok envelope
    ∧ envelope !! 0%nat = Some 0
    ∧ drop 1 envelope = out.
Proof.
  intros Hout. exists (0 :: out).
  unfold serializeAccountTransactionForSubmission. rewrite Hout.
  cbn [mbind result_bind]. rewrite (encodeWord8_of_Z 0) by lia.
  cbn [mbind result_bind]. unfold Buffer_concat. cbn [concat].
  by rewrite app_nil_r.
Qed.

(** C8. The transaction hash is the hexadecimal form, two characters for
    each byte, of the digest of the assembled bytes: the kind tag, the
    signature block, the header, the type tag and the payload. *)
Theorem transaction_hash tx sigs out :
  serializeAccountTransaction tx sigs = Ok out →
  ∃ sigBytes headerBytes payloadBytes hash,
    out = [AccountTransactionKind] ++ sigBytes ++ headerBytes
          ++ serializeAccountTransactionType (type tx) ++ payloadBytes
    ∧ getAccountTransactionHash tx sigs = Ok hash
    ∧ hash = toString_hex (sha256 [out])
    ∧ String.length hash = (2 * length (sha256 [out]))%nat
    ∧ (bytes (sha256 [out]) → Buffer_from_hex hash = sha256 [out]).
Proof.
  intros Hout.
  destruct (serializeAccountTransaction_Ok tx sigs out Hout)
    as (sigBytes & handler & payloadBytes & base & count & energy
        & headerBytes & _ & _ & _ & _ & _ & _ & _ & Hlay).
  exists sigBytes, headerBytes, payloadBytes, (toString_hex (sha256 [out])).
  split; [done|]. unfold getAccountTransactionHash. rewrite Hout.
  split; [done|]. split; [done|].
  split; [apply length_toString_hex|apply Buffer_from_hex_toString_hex].
Qed.

End transactions.

(** ** The transaction of the end-to-end example *)

(** C6 (amended). With the kind tag 1, a handler that serializes the
    payload of type 3 to [0A 0B], sender of 32 zero bytes, nonce 1, expiry
    100 and the signature set [{0: {0: "aa"}}], the assembled bytes are
    [01], the signature block [01 00 01 00 00 01 aa] (one credential,
    index 0, one key, index 0, length 1 on two bytes, the byte [aa]), the
    header, [03] and [0A 0B]. *)
Theorem assemble_example `{Imports} (p : AccountTransactionPayload)
    (addr : string) handler base count energy :
  AccountTransactionKind = 1 →
  getAccountTransactionHandler 3 = Ok handler →
  serialize handler p = Ok [10; 11] →
  getBaseEnergyCost handler p = Ok base →
  countSignatures [(0, [(0, "aa"%string)])] = Ok count →
  calculateEnergyCost count 3 base = Ok energy →
  0 ≤ energy ≤ 2 ^ 63 - 1 →
  serializeAccountTransaction
    {| header := {| sender := {| address := addr;
                                 decodedAddress := replicate 32 0 |};
                    nonce := 1;
                    expiry := {| expiryEpochSeconds := 100 |} |};
       type := 3;
       payload := p |}
    [(0, [(0, "aa"%string)])]
  = Ok ([1] ++ [1; 0; 1; 0; 0; 1; 170]
        ++ (replicate 32 0 ++ [0; 0; 0; 0; 0; 0; 0; 1] ++ be_bytes 8 energy
            ++ [0; 0; 0; 3] ++ [0; 0; 0; 0; 0; 0; 0; 100])
        ++ [3] ++ [10; 11]).
Proof.
  intros Hkind Hh Hp Hb Hc He Hen.
  unfold serializeAccountTransaction. rewrite encode_kind, Hkind.
  cbn [mbind result_bind type payload header].
  change (serializeAccountTransactionSignature _) with (Ok [1; 0; 1; 0; 0; 1; 170]).
  cbn [mbind result_bind]. rewrite Hh. cbn [mbind result_bind].
  rewrite Hp. cbn [mbind result_bind]. rewrite Hb. cbn [mbind result_bind].
  rewrite Hc. cbn [mbind result_bind]. change (Z.of_nat _) with 3.
  rewrite He. cbn [mbind result_bind].
  unfold serializeAccountTransactionHeader.
  cbn [nonce expiry expiryEpochSeconds sender decodedAddress].
  change (encodeWord64 1) with (Ok [0; 0; 0; 0; 0; 0; 0; 1]).
  change (encodeWord64 100) with (Ok [0; 0; 0; 0; 0; 0; 0; 100]).
  change (encodeWord32 _) with (Ok [0; 0; 0; 3]).
  rewrite (proj2 (encodeWord64_Ok energy _) (conj Hen eq_refl)).
  reflexivity.
Qed.

(** C6, with the collaborators of the fixture (energy 463). *)
Lemma assemble_example_witness :
  serializeAccountTransaction Fixture.tx Fixture.sigs
  = Ok ([1] ++ [1; 0; 1; 0; 0; 1; 170]
        ++ (replicate 32 0 ++ [0; 0; 0; 0; 0; 0; 0; 1] ++ be_bytes 8 463
            ++ [0; 0; 0; 3] ++ [0; 0; 0; 0; 0; 0; 0; 100])
        ++ [3] ++ [10; 11]).
Proof.
  apply (assemble_example (H := Fixture.imports) [10; 11] ""%string
           Fixture.handler 300 1 463); try reflexivity. lia.
Defined.

(** C6 as stated fails: the signature block of [{0: {0: "aa"}}] is
    [01 00 01 00 00 01 aa], and the assembled bytes do not begin
    [01 01 00 01 01 00 02 aa]. *)
Lemma assemble_example_signature_block :
  serializeAccountTransactionSignature Fixture.sigs
  = Ok [1; 0; 1; 0; 0; 1; 170]
  ∧ serializeAccountTransaction Fixture.tx Fixture.sigs = Ok Fixture.assembled
  ∧ take 8 Fixture.assembled = [1; 1; 0; 1; 0; 0; 1; 170]
  ∧ take 8 Fixture.assembled ≠ [1; 1; 0; 1; 1; 0; 2; 170].
Proof. split; [|split; [|split]]; try reflexivity. discriminate. Qed.

(** ** The theorems at the fixture *)

(** C4 at the fixture. *)
Lemma header_layout_witness :
  ∃ sigBytes payloadBytes energy,
    Ok (A := Buffer) [10; 11] = Ok payloadBytes
    ∧ Fixture.assembled
      = [1] ++ sigBytes
        ++ (replicate 32 0 ++ be_bytes 8 1 ++ be_bytes 8 energy
            ++ be_bytes 4 (Z.of_nat (1 + length payloadBytes))
            ++ be_bytes 8 100)
        ++ [3] ++ payloadBytes
    ∧ be_value (be_bytes 8 1) = 1
    ∧ be_value (be_bytes 8 energy) = energy
    ∧ be_value (be_bytes 4 (Z.of_nat (1 + length payloadBytes)))
      = Z.of_nat (length payloadBytes) + 1
    ∧ be_value (be_bytes 8 100) = 100.
Proof.
  apply (header_layout (H := Fixture.imports) Fixture.tx Fixture.sigs
           Fixture.assembled).
  reflexivity.
Defined.

(** C5 at the fixture, with the default signature count. *)
Lemma sign_digest_witness :
  ∃ sigBytes headerBytes payloadBytes,
    serializeAccountTransactionSignature Fixture.sigs = Ok sigBytes
    ∧ Fixture.assembled = [1] ++ sigBytes ++ headerBytes ++ [3] ++ payloadBytes
    ∧ getAccountTransactionSignDigest Fixture.tx None
      = Ok (Fixture.digest [headerBytes; [3]; payloadBytes]).
Proof.
  apply (proj2 (sign_digest (H := Fixture.imports) Fixture.tx None)
           Fixture.sigs Fixture.assembled); reflexivity.
Defined.

(** C7 at the fixture. *)
Lemma submission_envelope_witness :
  ∃ envelope,
    serializeAccountTransactionForSubmission Fixture.tx Fixture.sigs
    = Ok envelope
    ∧ envelope !! 0%nat = Some 0
    ∧ drop 1 envelope = Fixture.assembled.
Proof.
  apply (submission_envelope (H := Fixture.imports)). reflexivity.
Defined.

(** C8 at the fixture. *)
Lemma transaction_hash_witness :
  ∃ sigBytes headerBytes payloadBytes hash,
    Fixture.assembled = [1] ++ sigBytes ++ headerBytes ++ [3] ++ payloadBytes
    ∧ getAccountTransactionHash Fixture.tx Fixture.sigs = Ok hash
    ∧ hash = toString_hex (Fixture.digest [Fixture.assembled])
    ∧ String.length hash = (2 * length (Fixture.digest [Fixture.assembled]))%nat
    ∧ (bytes (Fixture.digest [Fixture.assembled]) →
       Buffer_from_hex hash = Fixture.digest [Fixture.assembled]).
Proof.
  apply (transaction_hash (H := Fixture.imports) Fixture.tx Fixture.sigs).
  reflexivity.
Defined.


(** * Further properties of the encoders *)

(** ** Fixed-width encoders *)

Lemma bytes_app (a b : Buffer) : bytes a → bytes b → bytes (a ++ b).
Proof. apply Forall_app_2. Qed.

Lemma be_bytes_inj n a b :
  0 ≤ a < 2 ^ (8 * Z.of_nat n) → 0 ≤ b < 2 ^ (8 * Z.of_nat n) →
  be_bytes n a = be_bytes n b → a = b.
Proof.
  intros Ha Hb E. rewrite <-(be_value_in_range n a), <-(be_value_in_range n b) by done.
  by rewrite E.
Qed.

(** X1. [encodeWord8] throws exactly on a value that is negative, not
    integral or above 255, and otherwise yields the one byte that is the
    value. *)
Theorem encodeWord8_behaviour v :
  (is_Err (encodeWord8 v) ↔ negative v ∨ ¬ integral v ∨ exceeds v 255)
  ∧ (∀ b, encodeWord8 v = Ok b
          ↔ ∃ z, represents v z ∧ 0 ≤ z ≤ 255 ∧ b = [z]).
Proof. split; [apply encodeWord8_Err|apply encodeWord8_Ok]. Qed.

(** X2. [encodeWord16] throws exactly on a value that is negative, not
    integral or above 65535; otherwise it yields two bytes that read back,
    most significant byte first, as the value. *)
Theorem encodeWord16_behaviour v :
  (is_Err (encodeWord16 v)
   ↔ negative v ∨ ¬ integral v ∨ exceeds v (2 ^ 16 - 1))
  ∧ (∀ b, encodeWord16 v = Ok b →
          ∃ z, represents v z ∧ length b = 2%nat ∧ bytes b ∧ be_value b = z).
Proof.
  split; [apply encodeWord16_Err|].
  intros b (z & Hz & _ & -> & Hlen & Hval)%encodeWord16_Ok.
  exists z. split; [done|]. split; [done|]. split; [apply bytes_be_bytes|done].
Qed.

(** X3. [encodeWord32] throws exactly on a value that is negative, not
    integral or above [2^32 - 1]; otherwise it yields four bytes that read
    back, most significant byte first, as the value. *)
Theorem encodeWord32_behaviour v :
  (is_Err (encodeWord32 v)
   ↔ negative v ∨ ¬ integral v ∨ exceeds v (2 ^ 32 - 1))
  ∧ (∀ b, encodeWord32 v = Ok b →
          ∃ z, represents v z ∧ length b = 4%nat ∧ bytes b ∧ be_value b = z).
Proof.
  split; [apply encodeWord32_Err|].
  intros b (z & Hz & _ & -> & Hlen & Hval)%encodeWord32_Ok.
  exists z. split; [done|]. split; [done|]. split; [apply bytes_be_bytes|done].
Qed.

(** X4. [encodeWord64] throws exactly on a value below 0 or at least
    [2^63]; otherwise it yields eight bytes that read back, most
    significant byte first, as the value, so that two values with the same
    encoding are equal. *)
Theorem encodeWord64_behaviour value :
  (is_Err (encodeWord64 value) ↔ value < 0 ∨ 2 ^ 63 ≤ value)
  ∧ (∀ b, encodeWord64 value = Ok b →
          length b = 8%nat ∧ bytes b ∧ be_value b = value)
  ∧ (∀ value' b, encodeWord64 value = Ok b → encodeWord64 value' = Ok b →
                 value = value').
Proof.
  split; [rewrite encodeWord64_Err; lia|]. split.
  - intros b Hb. destruct (encodeWord64_be_value _ _ Hb) as [Hlen Hval].
    apply encodeWord64_Ok in Hb as [_ ->].
    split; [done|]. split; [apply bytes_be_bytes|done].
  - intros value' b [Hr ->]%encodeWord64_Ok [Hr' E]%encodeWord64_Ok.
    apply (be_bytes_inj 8); [simpl; lia..|done].
Qed.

(** ** Length-prefixed buffers *)

Lemma encodeWord16_of_Z z :
  encodeWord16 (of_Z z)
  = if decide (0 ≤ z ≤ 65535) then Ok (be_bytes 2 z)
    else Err (InputNotUnsigned 16).
Proof.
  unfold encodeWord16. destruct (_ || _ || _) eqn:E.
  - case_decide as Hz; [|done]. apply range_check in E.
    rewrite (negative_represents _ z), (exceeds_represents _ z) in E
      by apply represents_of_Z.
    destruct E as [?|[Hni|?]]; [lia| |lia].
    destruct Hni. exists z. apply represents_of_Z.
  - apply range_check_in_range in E as (z' & Hz' & Hr).
    apply (represents_inj _ _ _ (represents_of_Z z)) in Hz' as <-.
    rewrite decide_True by done.
    by rewrite (to_integer_represents _ z) by apply represents_of_Z.
Qed.

Lemma encodeWord32_of_Z_dec z :
  encodeWord32 (of_Z z)
  = if decide (0 ≤ z ≤ 4294967295) then Ok (be_bytes 4 z)
    else Err (InputNotUnsigned 32).
Proof.
  case_decide as Hz; [by apply encodeWord32_of_Z|].
  destruct (encodeWord32 (of_Z z)) as [b|e] eqn:E.
  - apply encodeWord32_Ok in E as (z' & Hz' & Hr & _).
    apply (represents_inj _ _ _ (represents_of_Z z)) in Hz' as <-. lia.
  - unfold encodeWord32 in E.
    destruct (_ || _ || _); [by injection E as <-|done].
Qed.

(** A buffer after its length on [w] bytes can be cut off a longer
    sequence in one way only. *)
Lemma length_prefix_inj w (a b r1 r2 : Buffer) :
  Z.of_nat (length a) < 2 ^ (8 * Z.of_nat w) →
  Z.of_nat (length b) < 2 ^ (8 * Z.of_nat w) →
  (be_bytes w (Z.of_nat (length a)) ++ a) ++ r1
  = (be_bytes w (Z.of_nat (length b)) ++ b) ++ r2 →
  a = b ∧ r1 = r2.
Proof.
  intros Ha Hb E. rewrite <-!app_assoc in E.
  apply app_inj_1 in E as [Elen E]; [|by rewrite !length_be_bytes].
  apply be_bytes_inj in Elen; [|lia..].
  apply app_inj_1 in E; [done|lia].
Qed.

Lemma length_prefix_split w n (a : Buffer) :
  take w (be_bytes w n ++ a) = be_bytes w n ∧ drop w (be_bytes w n ++ a) = a.
Proof.
  split.
  - rewrite <-(length_be_bytes w n) at 1. apply take_app_length.
  - rewrite <-(length_be_bytes w n) at 1. apply drop_app_length.
Qed.

Lemma packBufferWithWord16Offset_dec buffer :
  packBufferWithWord16Offset buffer
  = if decide (Z.of_nat (length buffer) ≤ 65535)
    then Ok (be_bytes 2 (Z.of_nat (length buffer)) ++ buffer)
    else Err (InputNotUnsigned 16).
Proof.
  unfold packBufferWithWord16Offset, of_nat. rewrite encodeWord16_of_Z.
  case_decide; case_decide; try lia; [|done].
  unfold Buffer_concat. simpl. by rewrite app_nil_r.
Qed.

Lemma packBufferWithWord32Offset_dec buffer :
  packBufferWithWord32Offset buffer
  = if decide (Z.of_nat (length buffer) ≤ 4294967295)
    then Ok (be_bytes 4 (Z.of_nat (length buffer)) ++ buffer)
    else Err (InputNotUnsigned 32).
Proof.
  unfold packBufferWithWord32Offset, of_nat. rewrite encodeWord32_of_Z_dec.
  case_decide; case_decide; try lia; [|done].
  unfold Buffer_concat. simpl. by rewrite app_nil_r.
Qed.

(** X5. [packBufferWithWord16Offset] throws exactly when the buffer has
    more than 65535 bytes; otherwise the output is two bytes that read as
    the length of the buffer, followed by the buffer. *)
Theorem packBufferWithWord16Offset_behaviour buffer :
  (is_Err (packBufferWithWord16Offset buffer)
   ↔ 65535 < Z.of_nat (length buffer))
  ∧ (∀ out, packBufferWithWord16Offset buffer = Ok out →
       length out = (2 + length buffer)%nat
       ∧ be_value (take 2 out) = Z.of_nat (length buffer)
       ∧ drop 2 out = buffer).
Proof.
  rewrite packBufferWithWord16Offset_dec. case_decide as Hlen.
  - split; [split; [by intros [? [=]]|lia]|]. intros out Hout. apply Ok_inj in Hout as <-.
    destruct (length_prefix_split 2 (Z.of_nat (length buffer)) buffer)
      as [-> ->].
    split; [by rewrite length_app, length_be_bytes|].
    split; [|done]. apply (be_value_in_range 2). simpl. lia.
  - split; [|done]. split; [lia|]. by eexists.
Qed.

(** X6. [packBufferWithWord32Offset] throws exactly when the buffer has
    more than [2^32 - 1] bytes; otherwise the output is four bytes that
    read as the length of the buffer, followed by the buffer. *)
Theorem packBufferWithWord32Offset_behaviour buffer :
  (is_Err (packBufferWithWord32Offset buffer)
   ↔ 4294967295 < Z.of_nat (length buffer))
  ∧ (∀ out, packBufferWithWord32Offset buffer = Ok out →
       length out = (4 + length buffer)%nat
       ∧ be_value (take 4 out) = Z.of_nat (length buffer)
       ∧ drop 4 out = buffer).
Proof.
  rewrite packBufferWithWord32Offset_dec. case_decide as Hlen.
  - split; [split; [by intros [? [=]]|lia]|]. intros out Hout. apply Ok_inj in Hout as <-.
    destruct (length_prefix_split 4 (Z.of_nat (length buffer)) buffer)
      as [-> ->].
    split; [by rewrite length_app, length_be_bytes|].
    split; [|done]. apply (be_value_in_range 4). simpl. lia.
  - split; [|done]. split; [lia|]. by eexists.
Qed.

(** X7. Two buffers packed by [packBufferWithWord16Offset] and followed by
    anything are told apart: if the two sequences are equal, so are the
    buffers and what follows them. *)
Theorem packBufferWithWord16Offset_framing a b out_a out_b r1 r2 :
  packBufferWithWord16Offset a = Ok out_a →
  packBufferWithWord16Offset b = Ok out_b →
  out_a ++ r1 = out_b ++ r2 →
  a = b ∧ r1 = r2.
Proof.
  rewrite !packBufferWithWord16Offset_dec.
  case_decide; [|done]. case_decide; [|done]. intros Ha Hb. apply Ok_inj in Ha as <-. apply Ok_inj in Hb as <-.
  apply length_prefix_inj; simpl; lia.
Qed.

Lemma packBufferWithWord16Offset_framing_witness :
  [1; 2] = [1; 2] ∧ [9] = [9].
Proof.
  apply (packBufferWithWord16Offset_framing [1; 2] [1; 2]
           [0; 2; 1; 2] [0; 2; 1; 2] [9] [9]); reflexivity.
Defined.

(** X8. The same for [packBufferWithWord32Offset]. *)
Theorem packBufferWithWord32Offset_framing a b out_a out_b r1 r2 :
  packBufferWithWord32Offset a = Ok out_a →
  packBufferWithWord32Offset b = Ok out_b →
  out_a ++ r1 = out_b ++ r2 →
  a = b ∧ r1 = r2.
Proof.
  rewrite !packBufferWithWord32Offset_dec.
  case_decide; [|done]. case_decide; [|done]. intros Ha Hb. apply Ok_inj in Ha as <-. apply Ok_inj in Hb as <-.
  apply length_prefix_inj; simpl; lia.
Qed.

Lemma packBufferWithWord32Offset_framing_witness :
  [1; 2] = [1; 2] ∧ [9] = [9].
Proof.
  apply (packBufferWithWord32Offset_framing [1; 2] [1; 2]
           [0; 0; 0; 2; 1; 2] [0; 0; 0; 2; 1; 2] [9] [9]); reflexivity.
Defined.

(** X9. [encodeMemo] throws exactly when the memo has more than 65535
    bytes; otherwise the output is the length on two bytes followed by the
    memo bytes, and a memo is recovered from its encoding followed by
    anything. *)
Theorem encodeMemo_behaviour m :
  (is_Err (encodeMemo m) ↔ 65535 < Z.of_nat (length (memo m)))
  ∧ (∀ out, encodeMemo m = Ok out →
       be_value (take 2 out) = Z.of_nat (length (memo m))
       ∧ drop 2 out = memo m)
  ∧ (∀ m' out out' r r',
       encodeMemo m = Ok out → encodeMemo m' = Ok out' →
       out ++ r = out' ++ r' → m = m' ∧ r = r').
Proof.
  assert (∀ m, encodeMemo m = packBufferWithWord16Offset (memo m)) as Hpack
    by done.
  rewrite !Hpack, packBufferWithWord16Offset_dec.
  split; [|split].
  - case_decide; split; try lia; [by intros [? [=]]|by eexists].
  - case_decide; [|done]. intros out Hout. apply Ok_inj in Hout as <-.
    destruct (length_prefix_split 2 (Z.of_nat (length (memo m))) (memo m))
      as [-> ->].
    split; [|done]. apply (be_value_in_range 2). simpl. lia.
  - intros m' out out' r r'. rewrite Hpack, packBufferWithWord16Offset_dec.
    case_decide; [|done]. case_decide; [|done]. intros Ha Hb E. apply Ok_inj in Ha as <-. apply Ok_inj in Hb as <-.
    apply length_prefix_inj in E as [Hm ->]; [|simpl; lia..].
    split; [|done]. destruct m, m'. simpl in Hm. by subst.
Qed.

(** ** Strings *)

(** The UTF-8 form of a code unit, by running [utf8_char] on each: one or
    two bytes; the first byte tells how many; distinct code units have
    distinct forms. *)
Lemma utf8_char_facts c1 c2 :
  bytes (utf8_char c1)
  ∧ (1 ≤ length (utf8_char c1) ≤ 2)%nat
  ∧ (head (utf8_char c1) = head (utf8_char c2) →
     length (utf8_char c1) = length (utf8_char c2))
  ∧ (utf8_char c1 = utf8_char c2 → c1 = c2).
Proof.
  assert (Forall (λ c1, Forall (λ c2,
    Forall (λ x, 0 ≤ x < 256) (utf8_char c1)
    ∧ (1 ≤ length (utf8_char c1) ≤ 2)%nat
    ∧ (head (utf8_char c1) = head (utf8_char c2) →
       length (utf8_char c1) = length (utf8_char c2))
    ∧ (utf8_char c1 = utf8_char c2 → c1 = c2)) all_ascii) all_ascii) as Hall.
  { apply (bool_decide_unpack _). vm_compute. exact I. }
  rewrite Forall_forall in Hall.
  specialize (Hall c1 (elem_of_all_ascii c1)). rewrite Forall_forall in Hall.
  apply Hall, elem_of_all_ascii.
Qed.

Lemma bytes_utf8ToBytes str : bytes (utf8ToBytes str).
Proof.
  induction str as [|c str IH]; [constructor|].
  apply bytes_app; [apply (utf8_char_facts c c)|done].
Qed.

Lemma length_utf8ToBytes str :
  (String.length str ≤ length (utf8ToBytes str) ≤ 2 * String.length str)%nat.
Proof.
  induction str as [|c str IH]; simpl; [lia|].
  rewrite length_app. destruct (utf8_char_facts c c) as (_ & ? & _). lia.
Qed.

Lemma utf8ToBytes_inj s1 s2 r1 r2 :
  length r1 = length r2 →
  utf8ToBytes s1 ++ r1 = utf8ToBytes s2 ++ r2 → s1 = s2 ∧ r1 = r2.
Proof.
  revert s2. induction s1 as [|c1 s1 IH]; intros [|c2 s2] Hlen E.
  - done.
  - apply (f_equal length) in E. cbn [utf8ToBytes] in E.
    rewrite !length_app in E. destruct (utf8_char_facts c2 c2) as (_ & ? & _).
    simpl in E. lia.
  - apply (f_equal length) in E. cbn [utf8ToBytes] in E.
    rewrite !length_app in E. destruct (utf8_char_facts c1 c1) as (_ & ? & _).
    simpl in E. lia.
  - cbn [utf8ToBytes] in E. rewrite <-!app_assoc in E.
    destruct (utf8_char_facts c1 c2) as (_ & Hl1 & Hhead & Hinj).
    destruct (utf8_char_facts c2 c1) as (_ & Hl2 & _ & _).
    apply app_inj_1 in E as [Ec E].
    + apply Hinj in Ec as ->. by destruct (IH s2 Hlen E) as [-> ->].
    + apply Hhead. destruct (utf8_char c1), (utf8_char c2); simpl in *;
        try lia. by injection E as -> _.
Qed.

Lemma utf8ToBytes_ascii str :
  Forall (λ c, code c < 128) (list_ascii_of_string str) →
  utf8ToBytes str = code <$> list_ascii_of_string str.
Proof.
  induction str as [|c str IH]; [done|]. simpl.
  intros [Hc Hstr]%Forall_cons. rewrite IH by done. unfold utf8_char.
  by destruct (Z.ltb_spec (code c) 128); [|lia].
Qed.

Lemma encodeStringToByteArray_dec str :
  encodeStringToByteArray str
  = if decide (Z.of_nat (length (utf8ToBytes str)) ≤ 65535)
    then Ok (be_bytes 2 (Z.of_nat (length (utf8ToBytes str))) ++ utf8ToBytes str)
    else Err (InputNotUnsigned 16).
Proof. apply packBufferWithWord16Offset_dec. Qed.

(** X10. [encodeStringToByteArray] throws exactly when the UTF-8 form of
    the string has more than 65535 bytes; otherwise the output is bytes:
    the length of that form on two bytes, then the form, which has between
    one and two bytes for each character. *)
Theorem encodeStringToByteArray_behaviour str :
  (is_Err (encodeStringToByteArray str)
   ↔ 65535 < Z.of_nat (length (utf8ToBytes str)))
  ∧ (∀ out, encodeStringToByteArray str = Ok out →
       be_value (take 2 out) = Z.of_nat (length (utf8ToBytes str))
       ∧ drop 2 out = utf8ToBytes str
       ∧ bytes out)
  ∧ (String.length str ≤ length (utf8ToBytes str) ≤ 2 * String.length str)%nat.
Proof.
  rewrite encodeStringToByteArray_dec. split; [|split].
  - case_decide; split; try lia; [by intros [? [=]]|by eexists].
  - case_decide; [|done]. intros out Hout. apply Ok_inj in Hout as <-.
    destruct (length_prefix_split 2 (Z.of_nat (length (utf8ToBytes str)))
                (utf8ToBytes str)) as [-> ->].
    split; [apply (be_value_in_range 2); simpl; lia|]. split; [done|].
    apply bytes_app; [apply bytes_be_bytes|apply bytes_utf8ToBytes].
  - apply length_utf8ToBytes.
Qed.

(** X11. Among strings of code units below 256, two strings encoded by
    [encodeStringToByteArray] and followed by anything are told apart: if
    the two sequences are equal, so are the strings and what follows
    them. *)
Theorem encodeStringToByteArray_framing s1 s2 out1 out2 r1 r2 :
  encodeStringToByteArray s1 = Ok out1 →
  encodeStringToByteArray s2 = Ok out2 →
  out1 ++ r1 = out2 ++ r2 →
  s1 = s2 ∧ r1 = r2.
Proof.
  rewrite !encodeStringToByteArray_dec.
  case_decide; [|done]. case_decide; [|done].
  intros H1 H2 E. apply Ok_inj in H1 as <-. apply Ok_inj in H2 as <-.
  apply length_prefix_inj in E as [Eu ->]; [|simpl; lia..].
  split; [|done].
  by destruct (utf8ToBytes_inj s1 s2 [] [] eq_refl
                 ltac:(by rewrite !app_nil_r)) as [-> _].
Qed.

Lemma encodeStringToByteArray_framing_witness :
  "CCD"%string = "CCD"%string ∧ [7] = [7].
Proof.
  apply (encodeStringToByteArray_framing "CCD" "CCD"
           [0; 3; 67; 67; 68] [0; 3; 67; 67; 68] [7] [7]); reflexivity.
Defined.

(** X12. For a string of characters below [0x80] and of at most 65535
    characters, [encodeStringToByteArray] yields the count of characters
    on two bytes, then one byte for each character, its code. *)
Theorem encodeStringToByteArray_ascii str :
  Forall (λ c, code c < 128) (list_ascii_of_string str) →
  Z.of_nat (String.length str) ≤ 65535 →
  encodeStringToByteArray str
  = Ok (be_bytes 2 (Z.of_nat (String.length str))
        ++ (code <$> list_ascii_of_string str)).
Proof.
  intros Hascii Hlen. rewrite encodeStringToByteArray_dec.
  rewrite utf8ToBytes_ascii by done.
  assert (length (code <$> list_ascii_of_string str) = String.length str)
    as ->.
  { rewrite length_fmap. clear. induction str; simpl; congruence. }
  by rewrite decide_True by done.
Qed.

Lemma encodeStringToByteArray_ascii_witness :
  encodeStringToByteArray "CCD" = Ok ([0; 3] ++ [67; 67; 68]).
Proof.
  apply (encodeStringToByteArray_ascii "CCD").
  - apply (bool_decide_unpack _). vm_compute. exact I.
  - simpl. lia.
Defined.

(** ** The map encoder, continued *)

Section map_encoder_more.
Context {T : Type}.
Variable encodeSize : number → result Buffer.
Variable encodeKey : PropertyKey → result Buffer.
Variable encodeValue : T → result Buffer.
Implicit Types (m : NumRecord T) (entries : list (PropertyKey * T)).

Lemma spec_entries_is_Ok entries :
  is_Ok (spec_entries encodeKey encodeValue entries)
  ↔ Forall (λ e, is_Ok (encodeKey e.1) ∧ is_Ok (encodeValue e.2)) entries.
Proof.
  induction entries as [|[k t] entries IH].
  - split; [constructor|by eexists].
  - rewrite Forall_cons, <-IH. cbn [spec_entries fst snd]. unfold is_Ok.
    destruct (encodeKey k) as [kb|]; cbn [mbind result_bind];
      [|split; [by intros [? [=]]|by intros [[[? [=]] _] _]]].
    destruct (encodeValue t) as [vb|]; cbn [mbind result_bind];
      [|split; [by intros [? [=]]|by intros [[_ [? [=]]] _]]].
    destruct (spec_entries _ _ _) as [tl|]; cbn [mbind result_bind];
      [|split; [by intros [? [=]]|by intros [_ [? [=]]]]].
    split; intros _; repeat split; by eexists.
Qed.

Lemma entries_perm m :
  wf m → entries_in_order m (Object_keys m) ≡ₚ m.
Proof. intros. apply entries_in_order_perm; [done|apply Object_keys_perm]. Qed.

Lemma length_entries m : length (entries_in_order m (Object_keys m)) = length m.
Proof.
  rewrite <-(length_fmap fst), entries_in_order_keys.
  - apply length_Object_keys.
  - apply Forall_forall. intros k. by rewrite Object_keys_perm.
Qed.

(** [serializeMap] succeeds exactly when the count is encoded and every key
    and every value is. *)
Lemma serializeMap_is_Ok m :
  wf m →
  is_Ok (serializeMap m encodeSize encodeKey encodeValue)
  ↔ is_Ok (encodeSize (of_nat (length m)))
    ∧ Forall (λ e, is_Ok (encodeKey e.1) ∧ is_Ok (encodeValue e.2)) m.
Proof.
  intros Hwf. rewrite serializeMap_spec. unfold spec_encodeMap.
  rewrite length_entries.
  assert (Forall (λ e, is_Ok (encodeKey e.1) ∧ is_Ok (encodeValue e.2)) m
          ↔ is_Ok (spec_entries encodeKey encodeValue
                     (entries_in_order m (Object_keys m)))) as ->.
  { rewrite spec_entries_is_Ok. by rewrite (entries_perm m Hwf). }
  unfold is_Ok.
  destruct (encodeSize _) as [count|]; cbn [mbind result_bind];
    [|split; [by intros [? [=]]|by intros [[? [=]] _]]].
  destruct (spec_entries _ _ _) as [body|]; cbn [mbind result_bind];
    [|split; [by intros [? [=]]|by intros [_ [? [=]]]]].
  split; intros _; repeat split; by eexists.
Qed.

Lemma spec_entries_bytes entries out :
  (∀ k b, encodeKey k = Ok b → bytes b) →
  (∀ t b, encodeValue t = Ok b → bytes b) →
  spec_entries encodeKey encodeValue entries = Ok out → bytes out.
Proof.
  intros Hk Hv. revert out.
  induction entries as [|[k t] entries IH]; intros out.
  - intros Hout. apply Ok_inj in Hout as <-. constructor.
  - cbn [spec_entries]. intros Hout. inv_Ok Hout. apply Ok_inj in Hout as <-.
    apply bytes_app; [by eapply Hk|].
    apply bytes_app; [by eapply Hv|by apply IH].
Qed.

Lemma serializeMap_bytes m out :
  (∀ n b, encodeSize n = Ok b → bytes b) →
  (∀ k b, encodeKey k = Ok b → bytes b) →
  (∀ t b, encodeValue t = Ok b → bytes b) →
  serializeMap m encodeSize encodeKey encodeValue = Ok out → bytes out.
Proof.
  intros Hs Hk Hv. rewrite serializeMap_spec. unfold spec_encodeMap.
  intros Hout. inv_Ok Hout. apply Ok_inj in Hout as <-.
  apply bytes_app; [by eapply Hs|by eapply spec_entries_bytes].
Qed.

Lemma spec_entries_length (f : T → nat) entries out :
  (∀ k b, encodeKey k = Ok b → length b = 1%nat) →
  Forall (λ e, ∀ b, encodeValue e.2 = Ok b → length b = f e.2) entries →
  spec_entries encodeKey encodeValue entries = Ok out →
  length out = sum_list ((λ e, 1 + f e.2)%nat <$> entries).
Proof.
  intros Hk Hv. revert out.
  induction Hv as [|[k t] entries Ht _ IH]; intros out.
  - intros Hout. by apply Ok_inj in Hout as <-.
  - cbn [spec_entries]. intros Hout. inv_Ok Hout. apply Ok_inj in Hout as <-.
    rewrite !length_app, (Hk _ _ E), (Ht _ E0), (IH _ E1). done.
Qed.

Lemma serializeMap_length (f : T → nat) m out :
  wf m →
  (∀ n b, encodeSize n = Ok b → length b = 1%nat) →
  (∀ k b, encodeKey k = Ok b → length b = 1%nat) →
  Forall (λ e, ∀ b, encodeValue e.2 = Ok b → length b = f e.2) m →
  serializeMap m encodeSize encodeKey encodeValue = Ok out →
  length out = (1 + sum_list ((λ e, 1 + f e.2)%nat <$> m))%nat.
Proof.
  intros Hwf Hs Hk Hv. rewrite serializeMap_spec. unfold spec_encodeMap.
  intros Hout. inv_Ok Hout. apply Ok_inj in Hout as <-.
  rewrite length_app, (Hs _ _ E).
  assert (Forall (λ e, ∀ b, encodeValue e.2 = Ok b → length b = f e.2)
            (entries_in_order m (Object_keys m))) as Hv'
    by (by rewrite (entries_perm m Hwf)).
  rewrite (spec_entries_length f _ b0 Hk Hv' E0).
  by rewrite (entries_perm m Hwf).
Qed.

(** [serializeMap] reads the values of the object through [encodeValue]
    only. *)
Lemma encodeValueAt_Forall2 m1 m2 key :
  Forall2 (λ a b, a.1 = b.1 ∧ encodeValue a.2 = encodeValue b.2) m1 m2 →
  encodeValueAt m1 encodeValue key = encodeValueAt m2 encodeValue key.
Proof.
  unfold encodeValueAt.
  induction 1 as [|[k1 t1] [k2 t2] m1 m2 [Hk Ht] _ IH]; [done|].
  simpl in Hk, Ht. subst k2. simpl. by case_decide.
Qed.

Lemma forEach_push_values m1 m2 keys buffers :
  (∀ key, encodeValueAt m1 encodeValue key = encodeValueAt m2 encodeValue key) →
  forEach_push m1 encodeKey encodeValue keys buffers
  = forEach_push m2 encodeKey encodeValue keys buffers.
Proof.
  intros Hv. revert buffers. induction keys as [|key keys IH]; [done|].
  intros buffers. simpl. rewrite Hv.
  destruct (encodeKey key); [|done]. simpl.
  destruct (encodeValueAt m2 encodeValue key); [|done]. simpl. apply IH.
Qed.

Lemma serializeMap_values m1 m2 :
  Forall2 (λ a b, a.1 = b.1 ∧ encodeValue a.2 = encodeValue b.2) m1 m2 →
  serializeMap m1 encodeSize encodeKey encodeValue
  = serializeMap m2 encodeSize encodeKey encodeValue.
Proof.
  intros H12. unfold serializeMap, Object_keys.
  assert (m1.*1 = m2.*1) as ->.
  { induction H12 as [|[k1 t1] [k2 t2] ?? [Hk _] _ IH]; [done|].
    simpl in Hk. subst k2. cbn. by f_equal. }
  cbv zeta. destruct (encodeSize _); [|done]. simpl.
  by rewrite (forEach_push_values m1 m2)
    by (intros; by apply encodeValueAt_Forall2).
Qed.

End map_encoder_more.

(** X13. For an object with distinct keys, [serializeMap] succeeds exactly
    when the encoder of the count accepts the number of entries and the
    encoders of keys and values accept every key and every value of the
    object. *)
Theorem serializeMap_succeeds {T} (m : NumRecord T)
    (encodeSize : number → result Buffer)
    (encodeKey : PropertyKey → result Buffer)
    (encodeValue : T → result Buffer) :
  wf m →
  is_Ok (serializeMap m encodeSize encodeKey encodeValue)
  ↔ is_Ok (encodeSize (of_nat (length m)))
    ∧ Forall (λ e, is_Ok (encodeKey e.1) ∧ is_Ok (encodeValue e.2)) m.
Proof. apply serializeMap_is_Ok. Qed.

Lemma serializeMap_succeeds_witness :
  is_Ok (serializeMap [(2, "cc"); (0, "aa")] encodeWord8 encodeWord8FromString
           putSignature)
  ↔ is_Ok (encodeWord8 (of_nat (length [(2, "cc"%string); (0, "aa"%string)])))
    ∧ Forall (λ e, is_Ok (encodeWord8FromString e.1) ∧ is_Ok (putSignature e.2))
        [(2, "cc"%string); (0, "aa"%string)].
Proof.
  apply (serializeMap_succeeds [(2, "cc"%string); (0, "aa"%string)]).
  unfold wf. apply (bool_decide_unpack _). vm_compute. exact I.
Defined.

(** X14. An error of [serializeMap] is an error that one of the three
    encoders it was given returned: the encoder of the count, of a key or
    of a value. *)
Theorem serializeMap_error_origin {T} (m : NumRecord T)
    (encodeSize : number → result Buffer)
    (encodeKey : PropertyKey → result Buffer)
    (encodeValue : T → result Buffer) e :
  serializeMap m encodeSize encodeKey encodeValue = Err e →
  (∃ n, encodeSize n = Err e) ∨ (∃ k, encodeKey k = Err e)
  ∨ (∃ t, encodeValue t = Err e).
Proof. apply serializeMap_Err. Qed.

Lemma serializeMap_error_origin_witness :
  (∃ n, encodeWord8 n = Err (InputNotUnsigned 16))
  ∨ (∃ k, encodeWord8FromString k = Err (InputNotUnsigned 16))
  ∨ (∃ t, putSignature t = Err (InputNotUnsigned 16)).
Proof.
  apply (serializeMap_error_origin [(256, "aa"%string)]). reflexivity.
Defined.

(** ** The signature block, continued *)

Lemma encodeWord8_of_Z_is_Ok z : is_Ok (encodeWord8 (of_Z z)) ↔ 0 ≤ z ≤ 255.
Proof.
  split.
  - intros [b (z' & Hz' & Hr & _)%encodeWord8_Ok].
    by apply (represents_inj _ _ _ (represents_of_Z z)) in Hz' as <-.
  - intros Hz. eexists. by apply encodeWord8_of_Z.
Qed.

Lemma encodeWord8_length_bytes v b :
  encodeWord8 v = Ok b → length b = 1%nat ∧ bytes b.
Proof.
  intros (z & _ & Hr & ->)%encodeWord8_Ok. split; [done|].
  constructor; [lia|constructor].
Qed.

Lemma putSignature_is_Ok signature :
  is_Ok (putSignature signature)
  ↔ Z.of_nat (length (Buffer_from_hex signature)) ≤ 65535.
Proof.
  rewrite putSignature_spec. case_decide; split; try done.
  - by eexists.
  - by intros [? [=]].
Qed.

Lemma putSignature_length_bytes signature out :
  putSignature signature = Ok out →
  length out = (2 + length (Buffer_from_hex signature))%nat ∧ bytes out.
Proof.
  rewrite putSignature_spec. case_decide; [|done].
  intros Hout. apply Ok_inj in Hout as <-.
  split; [by rewrite length_app, length_be_bytes|].
  apply bytes_app; [apply bytes_be_bytes|apply bytes_hexWrite].
Qed.

Lemma putCredentialSignatures_is_Ok credSig :
  wf credSig →
  is_Ok (putCredentialSignatures credSig) ↔ encodable_credential credSig.
Proof.
  intros Hwf. unfold putCredentialSignatures, encodable_credential.
  rewrite serializeMap_is_Ok by done. unfold of_nat, encodeWord8FromString, Number.
  rewrite encodeWord8_of_Z_is_Ok.
  assert (∀ e : PropertyKey * string,
    is_Ok (encodeWord8 (of_Z e.1)) ∧ is_Ok (putSignature e.2)
    ↔ 0 ≤ e.1 ≤ 255 ∧ Z.of_nat (length (Buffer_from_hex e.2)) ≤ 65535) as Hiff.
  { intros e. by rewrite encodeWord8_of_Z_is_Ok, putSignature_is_Ok. }
  rewrite (Forall_iff _ _ _ Hiff). split; intros [? ?]; (split; [lia|done]).
Qed.

Lemma putCredentialSignatures_bytes credSig out :
  putCredentialSignatures credSig = Ok out → bytes out.
Proof.
  apply serializeMap_bytes.
  - intros n b Hb. by apply encodeWord8_length_bytes in Hb as [_ ?].
  - intros k b Hb. by apply encodeWord8_length_bytes in Hb as [_ ?].
  - intros s b Hb. by apply putSignature_length_bytes in Hb as [_ ?].
Qed.

Lemma putCredentialSignatures_length credSig out :
  wf credSig →
  putCredentialSignatures credSig = Ok out →
  length out = credential_size credSig.
Proof.
  intros Hwf Hout. unfold credential_size.
  rewrite (serializeMap_length encodeWord8 encodeWord8FromString putSignature
             (λ s, (2 + length (Buffer_from_hex s))%nat) credSig out Hwf);
    [done| | | |exact Hout].
  - intros n b Hb. by apply encodeWord8_length_bytes in Hb as [? _].
  - intros k b Hb. by apply encodeWord8_length_bytes in Hb as [? _].
  - apply Forall_forall. intros e _ b Hb.
    by apply putSignature_length_bytes in Hb as [? _].
Qed.

(** The encoding of a credential does not depend on the order in which its
    keys were created. *)
Lemma putCredentialSignatures_perm credSig credSig' out :
  wf credSig → credSig' ≡ₚ credSig →
  putCredentialSignatures credSig = Ok out →
  putCredentialSignatures credSig' = Ok out.
Proof.
  intros Hwf Hp Hout. unfold putCredentialSignatures in *.
  rewrite (serializeMap_perm _ _ _ credSig credSig'); [done..| |done].
  by eapply serializeMap_byte_keys.
Qed.

(** X15. For a signature set whose objects have distinct keys,
    [serializeAccountTransactionSignature] succeeds exactly when there are
    between 1 and 255 credentials, every credential index is a byte, and
    every credential has at most 255 keys, each a byte, each with a
    signature that decodes to at most 65535 bytes. *)
Theorem serializeAccountTransactionSignature_succeeds
    (signatures : AccountTransactionSignature) :
  wf signatures →
  Forall (λ e, wf e.2) signatures →
  is_Ok (serializeAccountTransactionSignature signatures)
  ↔ (1 ≤ length signatures ≤ 255)%nat
    ∧ Forall (λ e, 0 ≤ e.1 ≤ 255 ∧ encodable_credential e.2) signatures.
Proof.
  intros Hwf Hwfs. unfold serializeAccountTransactionSignature.
  rewrite length_Object_keys. case_decide as Hlen.
  - split; [by intros [? [=]]|lia].
  - rewrite serializeMap_is_Ok by done.
    unfold of_nat, encodeWord8FromString, Number.
    rewrite encodeWord8_of_Z_is_Ok, !Forall_forall.
    split.
    + intros [Hn Hall]. split; [lia|]. intros e He.
      destruct (Hall e He) as [Hk Hc]. apply encodeWord8_of_Z_is_Ok in Hk.
      split; [done|]. apply putCredentialSignatures_is_Ok; [|done].
      by apply (proj1 (Forall_forall _ _) Hwfs).
    + intros [Hn Hall]. split; [lia|]. intros e He.
      destruct (Hall e He) as [Hk Hc]. split.
      * by apply encodeWord8_of_Z_is_Ok.
      * apply putCredentialSignatures_is_Ok; [|done].
        by apply (proj1 (Forall_forall _ _) Hwfs).
Qed.

Lemma serializeAccountTransactionSignature_succeeds_witness :
  is_Ok (serializeAccountTransactionSignature
           [(1, [(1, "bb"); (0, "aa")]); (0, [(0, "cc")])])
  ↔ (1 ≤ length [(1, [(1, "bb"%string); (0, "aa"%string)]);
                 (0, [(0, "cc"%string)])] ≤ 255)%nat
    ∧ Forall (λ e, 0 ≤ e.1 ≤ 255 ∧ encodable_credential e.2)
        [(1, [(1, "bb"%string); (0, "aa"%string)]); (0, [(0, "cc"%string)])].
Proof.
  apply (serializeAccountTransactionSignature_succeeds
           [(1, [(1, "bb"%string); (0, "aa"%string)]);
            (0, [(0, "cc"%string)])]).
  - unfold wf. apply (bool_decide_unpack _). vm_compute. exact I.
  - unfold wf. apply (bool_decide_unpack _). vm_compute. exact I.
Defined.

(** X16. Every element of an encoded signature block is a byte. *)
Theorem serializeAccountTransactionSignature_bytes
    (signatures : AccountTransactionSignature) out :
  serializeAccountTransactionSignature signatures = Ok out → bytes out.
Proof.
  unfold serializeAccountTransactionSignature. case_decide; [done|].
  apply serializeMap_bytes.
  - intros n b Hb. by apply encodeWord8_length_bytes in Hb as [_ ?].
  - intros k b Hb. by apply encodeWord8_length_bytes in Hb as [_ ?].
  - apply putCredentialSignatures_bytes.
Qed.

Lemma serializeAccountTransactionSignature_bytes_witness :
  bytes [1; 0; 1; 0; 0; 1; 170].
Proof.
  apply (serializeAccountTransactionSignature_bytes Fixture.sigs). reflexivity.
Defined.

(** X17. The size of an encoded signature block: one byte, and for every
    credential two bytes and, for every key, three bytes and the bytes of
    its decoded signature. *)
Theorem serializeAccountTransactionSignature_length
    (signatures : AccountTransactionSignature) out :
  wf signatures →
  Forall (λ e, wf e.2) signatures →
  serializeAccountTransactionSignature signatures = Ok out →
  length out = signature_block_size signatures.
Proof.
  intros Hwf Hwfs. unfold serializeAccountTransactionSignature.
  case_decide; [done|]. intros Hout. unfold signature_block_size.
  rewrite (serializeMap_length encodeWord8 encodeWord8FromString
             putCredentialSignatures credential_size signatures out Hwf);
    [done| | | |exact Hout].
  - intros n b Hb. by apply encodeWord8_length_bytes in Hb as [? _].
  - intros k b Hb. by apply encodeWord8_length_bytes in Hb as [? _].
  - eapply Forall_impl; [exact Hwfs|]. intros e He b Hb.
    by apply putCredentialSignatures_length.
Qed.

Lemma serializeAccountTransactionSignature_length_witness :
  length [2; 0; 1; 0; 0; 1; 204; 1; 2; 0; 0; 1; 170; 1; 0; 1; 187]
  = signature_block_size
      [(1, [(1, "bb"%string); (0, "aa"%string)]); (0, [(0, "cc"%string)])].
Proof.
  apply (serializeAccountTransactionSignature_length
           [(1, [(1, "bb"%string); (0, "aa"%string)]);
            (0, [(0, "cc"%string)])]).
  - unfold wf. apply (bool_decide_unpack _). vm_compute. exact I.
  - unfold wf. apply (bool_decide_unpack _). vm_compute. exact I.
  - reflexivity.
Defined.

Lemma putCredentialSignatures_Forall2
    (reordered signatures : AccountTransactionSignature) :
  Forall (λ e, wf e.2) signatures →
  Forall (λ e, is_Ok (putCredentialSignatures e.2)) signatures →
  Forall2 (λ a b, a.1 = b.1 ∧ a.2 ≡ₚ b.2) reordered signatures →
  Forall2 (λ a b, a.1 = b.1
                  ∧ putCredentialSignatures a.2 = putCredentialSignatures b.2)
    reordered signatures.
Proof.
  intros Hwfs Hok Hinner. induction Hinner as [|a b ?? [Hk Hp] _ IH]; [done|].
  apply Forall_cons in Hwfs as [Hwb Hwfs].
  apply Forall_cons in Hok as [[o Ho] Hok].
  constructor; [|by apply IH]. split; [done|].
  rewrite Ho. by apply (putCredentialSignatures_perm b.2).
Qed.

Lemma Forall2_keys {T} (m1 m2 : NumRecord T) (P : T → T → Prop) :
  Forall2 (λ a b, a.1 = b.1 ∧ P a.2 b.2) m1 m2 → m1.*1 = m2.*1.
Proof.
  induction 1 as [|[k1 t1] [k2 t2] ?? [Hk _] _ IH]; [done|].
  simpl in Hk. subst k2. cbn. by f_equal.
Qed.

(** X18. The encoded signature block does not depend on the order in which
    the credentials, or the keys of a credential, were created: a set with
    the same credentials, each with the same keys and signatures, created
    in any order, has the same encoding. *)
Theorem serializeAccountTransactionSignature_creation_order
    (signatures reordered signatures' : AccountTransactionSignature) out :
  wf signatures →
  Forall (λ e, wf e.2) signatures →
  Forall2 (λ a b, a.1 = b.1 ∧ a.2 ≡ₚ b.2) reordered signatures →
  signatures' ≡ₚ reordered →
  serializeAccountTransactionSignature signatures = Ok out →
  serializeAccountTransactionSignature signatures' = Ok out.
Proof.
  intros Hwf Hwfs Hinner Houter.
  unfold serializeAccountTransactionSignature.
  assert (length signatures' = length signatures) as Hlen.
  { rewrite Houter. by eapply Forall2_length. }
  rewrite !length_Object_keys, Hlen.
  case_decide; [done|]. intros Hout.
  assert (is_Ok (serializeMap signatures encodeWord8 encodeWord8FromString
                   putCredentialSignatures)) as Hok by by eexists.
  apply serializeMap_is_Ok in Hok as [_ Hcreds]; [|done].
  assert (serializeMap reordered encodeWord8 encodeWord8FromString
            putCredentialSignatures = Ok out) as Hre.
  { rewrite <-Hout. apply serializeMap_values.
    apply putCredentialSignatures_Forall2; [done| |done].
    eapply Forall_impl; [exact Hcreds|]. by intros e [_ ?]. }
  rewrite <-Hre. apply serializeMap_perm; [| |done].
  - unfold wf.
    by rewrite (Forall2_keys reordered signatures (λ x y, x ≡ₚ y) Hinner).
  - by eapply serializeMap_byte_keys.
Qed.

Lemma serializeAccountTransactionSignature_creation_order_witness :
  serializeAccountTransactionSignature
    [(0, [(0, "cc")]); (1, [(0, "aa"); (1, "bb")])]
  = Ok [2; 0; 1; 0; 0; 1; 204; 1; 2; 0; 0; 1; 170; 1; 0; 1; 187].
Proof.
  apply (serializeAccountTransactionSignature_creation_order
           [(1, [(1, "bb"%string); (0, "aa"%string)]); (0, [(0, "cc"%string)])]
           [(1, [(0, "aa"%string); (1, "bb"%string)]); (0, [(0, "cc"%string)])]).
  - unfold wf. apply (bool_decide_unpack _). vm_compute. exact I.
  - unfold wf. apply (bool_decide_unpack _). vm_compute. exact I.
  - repeat constructor.
  - apply perm_swap.
  - reflexivity.
Defined.

(** ** Signatures as hexadecimal strings, continued *)

(** An unpaired last character is not read. *)
Lemma hexWrite_odd s b c :
  spec_hex_decode s = Some b → hexWrite (s +:+ String c EmptyString) = b.
Proof.
  revert b. induction s as [|a|a1 a2 s IH] using string_pair_ind; intros b.
  - by intros [= <-].
  - done.
  - cbn [spec_hex_decode].
    destruct (hex_digit a1) as [h|] eqn:Ha; [|done].
    destruct (hex_digit a2) as [l|] eqn:Hc; [|done]. cbn [mbind option_bind].
    destruct (spec_hex_decode s) as [tl|]; [|done]. intros [= <-].
    change (hexWrite (String a1 (String a2 (s +:+ String c EmptyString)))
            = 16 * h + l :: tl).
    cbn [hexWrite]. rewrite (parseInt16_digits a1 a2 h l) by done.
    apply hex_digit_range in Ha, Hc.
    rewrite Z.mod_small by lia. f_equal. by apply IH.
Qed.

Lemma length_hexWrite s : (2 * length (hexWrite s) ≤ String.length s)%nat.
Proof.
  induction s as [|a|a c s IH] using string_pair_ind; [done|simpl; lia|].
  cbn [hexWrite]. destruct (parseInt16 _); simpl; lia.
Qed.

(** X19. A signature given as the hexadecimal form ([toString('hex')]) of
    at most 65535 bytes is encoded as the count of these bytes on two
    bytes followed by these bytes. *)
Theorem putSignature_of_bytes (b : Buffer) :
  bytes b →
  Z.of_nat (length b) ≤ 65535 →
  putSignature (toString_hex b)
  = Ok (be_bytes 2 (Z.of_nat (length b)) ++ b).
Proof.
  intros Hb Hlen. rewrite putSignature_spec.
  rewrite Buffer_from_hex_toString_hex by done. by rewrite decide_True.
Qed.

Lemma putSignature_of_bytes_witness :
  putSignature (toString_hex [170; 187; 1])
  = Ok (be_bytes 2 (Z.of_nat (length [170; 187; 1])) ++ [170; 187; 1]).
Proof.
  apply (putSignature_of_bytes [170; 187; 1]).
  - apply (bool_decide_unpack _). vm_compute. exact I.
  - simpl. lia.
Defined.

(** X20. Two encoded signatures followed by anything are told apart: if
    the two sequences are equal, the signatures decode to the same bytes
    and what follows them is the same. *)
Theorem putSignature_framing s1 s2 out1 out2 r1 r2 :
  putSignature s1 = Ok out1 →
  putSignature s2 = Ok out2 →
  out1 ++ r1 = out2 ++ r2 →
  Buffer_from_hex s1 = Buffer_from_hex s2 ∧ r1 = r2.
Proof.
  rewrite !putSignature_spec. case_decide; [|done]. case_decide; [|done].
  intros H1 H2. apply Ok_inj in H1 as <-. apply Ok_inj in H2 as <-.
  apply length_prefix_inj; simpl; lia.
Qed.

Lemma putSignature_framing_witness :
  Buffer_from_hex "AA" = Buffer_from_hex "aa" ∧ [5; 6] = [5; 6].
Proof.
  apply (putSignature_framing "AA" "aa" [0; 1; 170] [0; 1; 170]);
    reflexivity.
Defined.

(** X21. After an even number of hexadecimal digits, one more character is
    ignored: the decoded bytes are those of the digits before it. *)
Theorem Buffer_from_hex_odd s b c :
  spec_hex_decode s = Some b →
  Buffer_from_hex (s +:+ String c EmptyString) = b
  ∧ putSignature (s +:+ String c EmptyString) = putSignature s.
Proof.
  intros Hs. assert (Buffer_from_hex (s +:+ String c EmptyString) = b) as Hodd
    by by apply hexWrite_odd.
  split; [done|]. rewrite !putSignature_spec, Hodd.
  destruct (hexWrite_valid s b Hs) as [Hv _].
  change (Buffer_from_hex s) with (hexWrite s). by rewrite Hv.
Qed.

Lemma Buffer_from_hex_odd_witness :
  Buffer_from_hex ("aabb" +:+ "c") = [170; 187]
  ∧ putSignature ("aabb" +:+ "c") = putSignature "aabb".
Proof. apply (Buffer_from_hex_odd "aabb"). reflexivity. Defined.

(** X22. Whatever the string, [Buffer.from(s, 'hex')] yields bytes, and at
    most one for every two characters. *)
Theorem Buffer_from_hex_bound s :
  bytes (Buffer_from_hex s)
  ∧ (2 * length (Buffer_from_hex s) ≤ String.length s)%nat.
Proof. split; [apply bytes_hexWrite|apply length_hexWrite]. Qed.

(** ** Transactions, continued *)

Section transactions_more.
Context `{Imports}.
Implicit Types (tx : AccountTransaction) (sigs : AccountTransactionSignature).

Lemma encodeWord32_represents v z :
  represents v z → 0 ≤ z ≤ 4294967295 → encodeWord32 v = Ok (be_bytes 4 z).
Proof.
  intros Hz Hr. unfold encodeWord32.
  assert (js_gt v (of_Z 4294967295) || js_lt v (of_Z 0)
          || negb (Number_isInteger v) = false) as ->.
  { apply range_check_in_range. eauto. }
  by rewrite (to_integer_represents v z).
Qed.

(** X23. [serializeAccountTransactionHeader] succeeds exactly when the
    nonce, the energy and the expiry are in [0, 2^63 - 1] and the payload
    size is an integer in [0, 2^32 - 1]; the header then has 28 bytes more
    than the sender. *)
Theorem serializeAccountTransactionHeader_succeeds
    (hd : AccountTransactionHeader) (payloadSize : number) (energyAmount : Z) :
  (is_Ok (serializeAccountTransactionHeader hd payloadSize energyAmount)
   ↔ 0 ≤ nonce hd ≤ 2 ^ 63 - 1
     ∧ 0 ≤ energyAmount ≤ 2 ^ 63 - 1
     ∧ (∃ size, represents payloadSize size ∧ 0 ≤ size ≤ 2 ^ 32 - 1)
     ∧ 0 ≤ expiryEpochSeconds (expiry hd) ≤ 2 ^ 63 - 1)
  ∧ (∀ b, serializeAccountTransactionHeader hd payloadSize energyAmount = Ok b →
          length b = (length (decodedAddress (sender hd)) + 28)%nat).
Proof.
  split; [split|].
  - intros [b (size & Hs & Hn & He & Hsz & Hex & _)
      %serializeAccountTransactionHeader_Ok].
    split; [done|]. split; [done|]. split; [|done]. exists size. split; [done|lia].
  - intros (Hn & He & (size & Hs & Hsz) & Hex).
    unfold serializeAccountTransactionHeader. cbv zeta.
    rewrite (proj2 (encodeWord64_Ok (nonce hd) _) (conj Hn eq_refl)).
    cbn [mbind result_bind].
    rewrite (proj2 (encodeWord64_Ok energyAmount _) (conj He eq_refl)).
    cbn [mbind result_bind].
    rewrite (encodeWord32_represents payloadSize size) by (done || lia).
    cbn [mbind result_bind].
    rewrite (proj2 (encodeWord64_Ok _ _) (conj Hex eq_refl)).
    by eexists.
  - intros b (size & _ & _ & _ & _ & _ & ->)
      %serializeAccountTransactionHeader_Ok.
    rewrite !length_app, !length_be_bytes. lia.
Qed.

(** X24. The length of an assembled transaction is 1 for the kind tag,
    the length of the signature block, the length of the sender and 28 for
    the header, 1 for the type tag, and the length of the payload. *)
Theorem serializeAccountTransaction_length tx sigs out :
  serializeAccountTransaction tx sigs = Ok out →
  ∃ sigBytes payloadBytes,
    serializeAccountTransactionSignature sigs = Ok sigBytes
    ∧ (getAccountTransactionHandler (type tx)
         ≫= λ handler, serialize handler (payload tx)) = Ok payloadBytes
    ∧ length out
      = (1 + length sigBytes
         + (length (decodedAddress (sender (header tx))) + 28)
         + 1 + length payloadBytes)%nat.
Proof.
  intros (sigBytes & handler & payloadBytes & base & count & energy
          & headerBytes & Hs & Hh & Hp & Hb & Hc & He & Hhd & ->)
    %serializeAccountTransaction_Ok.
  apply serializeAccountTransactionHeader_Ok in Hhd
    as (size & _ & _ & _ & _ & _ & ->).
  exists sigBytes, payloadBytes. split; [done|]. split; [by rewrite Hh|].
  rewrite !length_app, !length_be_bytes,
    length_serializeAccountTransactionType. simpl. lia.
Qed.

(** X25. When the sender bytes and the payload bytes are bytes, so is
    every element of the assembled transaction. *)
Theorem serializeAccountTransaction_bytes tx sigs out :
  serializeAccountTransaction tx sigs = Ok out →
  bytes (decodedAddress (sender (header tx))) →
  (∀ handler payloadBytes,
     getAccountTransactionHandler (type tx) = Ok handler →
     serialize handler (payload tx) = Ok payloadBytes → bytes payloadBytes) →
  bytes out.
Proof.
  intros (sigBytes & handler & payloadBytes & base & count & energy
          & headerBytes & Hs & Hh & Hp & Hb & Hc & He & Hhd & ->)
    %serializeAccountTransaction_Ok Hsender Hpayload.
  apply serializeAccountTransactionHeader_Ok in Hhd
    as (size & _ & _ & _ & _ & _ & ->).
  assert (bytes sigBytes) as Hsig.
  { revert Hs. unfold serializeAccountTransactionSignature.
    case_decide; [done|]. apply serializeMap_bytes.
    - intros n b Hn. by apply encodeWord8_length_bytes in Hn as [_ ?].
    - intros k b Hk. by apply encodeWord8_length_bytes in Hk as [_ ?].
    - apply putCredentialSignatures_bytes. }
  pose proof AccountTransactionKind_byte.
  repeat apply bytes_app; try apply bytes_be_bytes; try done.
  - constructor; [lia|constructor].
  - constructor; [|constructor]. apply Z.mod_pos_bound. lia.
  - by eapply Hpayload.
Qed.

(** X26. A transaction whose signing digest was computed for a signature
    count can be assembled with every signature set that is encoded and
    has that count; the digest is the hash of what follows the kind tag
    and the signature block in the assembled bytes. *)
Theorem serializeAccountTransaction_after_digest tx sigs count digest sigBytes :
  getAccountTransactionSignDigest tx (Some count) = Ok digest →
  serializeAccountTransactionSignature sigs = Ok sigBytes →
  countSignatures sigs = Ok count →
  ∃ headerBytes payloadBytes,
    serializeAccountTransaction tx sigs
    = Ok ([AccountTransactionKind] ++ sigBytes ++ headerBytes
          ++ serializeAccountTransactionType (type tx) ++ payloadBytes)
    ∧ digest = sha256 [headerBytes;
                       serializeAccountTransactionType (type tx);
                       payloadBytes].
Proof.
  intros Hd Hs Hc. unfold getAccountTransactionSignDigest in Hd.
  cbv zeta in Hd. inv_Ok Hd. apply Ok_inj in Hd as <-.
  eexists _, _. split; [|done].
  unfold serializeAccountTransaction. rewrite encode_kind.
  cbn [mbind result_bind]. rewrite Hs. cbn [mbind result_bind].
  rewrite E. cbn [mbind result_bind]. rewrite E0. cbn [mbind result_bind].
  rewrite E1. cbn [mbind result_bind]. rewrite Hc. cbn [mbind result_bind].
  simpl in E2. rewrite E2. cbn [mbind result_bind]. rewrite E3.
  cbn [mbind result_bind]. unfold Buffer_concat. cbn [concat].
  by rewrite app_nil_r.
Qed.

(** X27. The transaction hash is the hash of the submission envelope
    without its first byte, the version 0. *)
Theorem getAccountTransactionHash_of_envelope tx sigs envelope :
  serializeAccountTransactionForSubmission tx sigs = Ok envelope →
  envelope !! 0%nat = Some 0
  ∧ getAccountTransactionHash tx sigs
    = Ok (toString_hex (sha256 [drop 1 envelope])).
Proof.
  unfold serializeAccountTransactionForSubmission, getAccountTransactionHash.
  destruct (serializeAccountTransaction tx sigs) as [out|]; [|done].
  cbn [mbind result_bind]. rewrite (encodeWord8_of_Z 0) by lia.
  cbn [mbind result_bind]. intros Henv. apply Ok_inj in Henv as <-.
  unfold Buffer_concat. cbn [concat]. by rewrite app_nil_r.
Qed.

End transactions_more.

(** X24 at the fixture. *)
Lemma serializeAccountTransaction_length_witness :
  ∃ sigBytes payloadBytes,
    serializeAccountTransactionSignature Fixture.sigs = Ok sigBytes
    ∧ Ok (A := Buffer) [10; 11] = Ok payloadBytes
    ∧ length Fixture.assembled
      = (1 + length sigBytes + (length (replicate 32 0) + 28)
         + 1 + length payloadBytes)%nat.
Proof.
  apply (serializeAccountTransaction_length (H := Fixture.imports)
           Fixture.tx Fixture.sigs Fixture.assembled).
  reflexivity.
Defined.

(** X25 at the fixture. *)
Lemma serializeAccountTransaction_bytes_witness : bytes Fixture.assembled.
Proof.
  apply (serializeAccountTransaction_bytes (H := Fixture.imports)
           Fixture.tx Fixture.sigs Fixture.assembled).
  - reflexivity.
  - apply (bool_decide_unpack _). vm_compute. exact I.
  - intros handler payloadBytes Hh Hp. apply Ok_inj in Hh as <-.
    apply Ok_inj in Hp as <-.
    apply (bool_decide_unpack _). vm_compute. exact I.
Defined.

(** X26 at the fixture, for one signature. *)
Lemma serializeAccountTransaction_after_digest_witness :
  ∃ headerBytes payloadBytes,
    serializeAccountTransaction Fixture.tx Fixture.sigs
    = Ok ([1] ++ [1; 0; 1; 0; 0; 1; 170] ++ headerBytes ++ [3]
          ++ payloadBytes)
    ∧ replicate 32 0 = Fixture.digest [headerBytes; [3]; payloadBytes].
Proof.
  apply (serializeAccountTransaction_after_digest (H := Fixture.imports)
           Fixture.tx Fixture.sigs 1 (replicate 32 0)
           [1; 0; 1; 0; 0; 1; 170]); reflexivity.
Defined.

(** X27 at the fixture. *)
Lemma getAccountTransactionHash_of_envelope_witness :
  (0 :: Fixture.assembled) !! 0%nat = Some 0
  ∧ getAccountTransactionHash Fixture.tx Fixture.sigs
    = Ok (toString_hex (Fixture.digest [drop 1 (0 :: Fixture.assembled)])).
Proof.
  apply (getAccountTransactionHash_of_envelope (H := Fixture.imports)
           Fixture.tx Fixture.sigs (0 :: Fixture.assembled)).
  reflexivity.
Defined.

(** ** The node client *)

Lemma js_lt_represents v z b :
  represents v z → js_lt v (of_Z b) = true ↔ z < b.
Proof.
  destruct v as [q| | |]; simpl; try done. intros Hq.
  rewrite negb_true_iff, <-not_true_iff_false, Qle_bool_iff, Hq, <-Zle_Qle.
  lia.
Qed.

Lemma js_gt_represents v z b :
  represents v z → js_gt v (of_Z b) = true ↔ b < z.
Proof. intros Hz. by rewrite js_gt_of_Z, (exceeds_represents v z). Qed.

Lemma Number_isSafeInteger_spec v :
  NodeClient.Number_isSafeInteger v = true
  ↔ ∃ z, represents v z ∧ - (2 ^ 53 - 1) ≤ z ≤ 2 ^ 53 - 1.
Proof.
  unfold NodeClient.Number_isSafeInteger.
  rewrite !andb_true_iff, !negb_true_iff, <-!not_true_iff_false,
    Number_isInteger_integral.
  split.
  - intros [[[z Hz] Hgt] Hlt]. exists z. split; [done|].
    rewrite (js_gt_represents v z) in Hgt by done.
    rewrite (js_lt_represents v z) in Hlt by done. lia.
  - intros (z & Hz & Hr).
    rewrite (js_gt_represents v z), (js_lt_represents v z) by done.
    split; [split; [by exists z|]|]; lia.
Qed.

(** X28. [new ConcordiumNodeClient(..)] throws the error about the timeout
    exactly when the timeout is not an integer in [0, 2^53 - 1] (0 is
    accepted); a client that is constructed holds the address, the port,
    the metadata and the timeout it was given, and the [P2PClient] made
    from the address, the port, the credentials and the options. *)
Theorem NodeClient_constructor {ChannelCredentials Metadata Options P2PClient}
    (P2PClient_new : string → number → ChannelCredentials → option Options
                     → result P2PClient)
    address port credentials (metadata : Metadata) timeout options :
  (NodeClient.constructor _ _ _ _ P2PClient_new address port credentials
     metadata timeout options = NodeClient.InvalidTimeout _ _
   ↔ ¬ ∃ z, represents timeout z ∧ 0 ≤ z ≤ 2 ^ 53 - 1)
  ∧ (∀ c, NodeClient.constructor _ _ _ _ P2PClient_new address port
            credentials metadata timeout options = NodeClient.Client _ _ c →
          NodeClient.address _ _ c = address
          ∧ NodeClient.port _ _ c = port
          ∧ NodeClient.metadata _ _ c = metadata
          ∧ NodeClient.timeout _ _ c = timeout
          ∧ P2PClient_new address port credentials options
            = Ok (NodeClient.client _ _ c)).
Proof.
  unfold NodeClient.constructor.
  destruct (js_lt timeout (of_Z 0)
            || negb (NodeClient.Number_isSafeInteger timeout)) eqn:E.
  - split; [|done]. split; [intros _|done].
    intros (z & Hz & Hr). apply orb_true_iff in E as [E|E].
    + apply (js_lt_represents timeout z) in E; [lia|done].
    + apply negb_true_iff, not_true_iff_false in E. apply E.
      apply Number_isSafeInteger_spec. exists z. split; [done|lia].
  - apply orb_false_iff in E as [Elt Esafe].
    apply negb_false_iff, Number_isSafeInteger_spec in Esafe
      as (z & Hz & Hr).
    apply not_true_iff_false in Elt.
    rewrite (js_lt_represents timeout z) in Elt by done.
    split.
    + split; [by destruct (P2PClient_new _ _ _ _)|].
      intros Hno. destruct Hno. exists z. split; [done|lia].
    + intros c. destruct (P2PClient_new _ _ _ _) as [p|]; [|done].
      by intros [= <-].
Qed.

(** ** Errors of the assembly *)

Lemma encodeWord64_dec value :
  encodeWord64 value
  = if decide (0 ≤ value ≤ 2 ^ 63 - 1) then Ok (be_bytes 8 value)
    else Err (InputNotUnsigned 64).
Proof.
  unfold encodeWord64. change (2 ^ 63 - 1) with 9223372036854775807.
  destruct (_ || _) eqn:E.
  - apply orb_true_iff in E. by rewrite decide_False by lia.
  - apply orb_false_iff in E. by rewrite decide_True by lia.
Qed.

(** The header fails with the error of the first field, in the order nonce,
    energy, payload size, expiry, that is out of range. *)
Lemma serializeAccountTransactionHeader_cases hd size energyAmount :
  serializeAccountTransactionHeader hd (of_Z size) energyAmount
  = if decide (0 ≤ nonce hd ≤ 2 ^ 63 - 1) then
      if decide (0 ≤ energyAmount ≤ 2 ^ 63 - 1) then
        if decide (0 ≤ size ≤ 4294967295) then
          if decide (0 ≤ expiryEpochSeconds (expiry hd) ≤ 2 ^ 63 - 1) then
            Ok (decodedAddress (sender hd) ++ be_bytes 8 (nonce hd)
                ++ be_bytes 8 energyAmount ++ be_bytes 4 size
                ++ be_bytes 8 (expiryEpochSeconds (expiry hd)))
          else Err (InputNotUnsigned 64)
        else Err (InputNotUnsigned 32)
      else Err (InputNotUnsigned 64)
    else Err (InputNotUnsigned 64).
Proof.
  unfold serializeAccountTransactionHeader. cbv zeta.
  rewrite !encodeWord64_dec, encodeWord32_of_Z_dec.
  destruct (decide (0 ≤ nonce hd ≤ 2 ^ 63 - 1)); [|done].
  cbn [mbind result_bind].
  destruct (decide (0 ≤ energyAmount ≤ 2 ^ 63 - 1)); [|done].
  cbn [mbind result_bind].
  destruct (decide (0 ≤ size ≤ 4294967295)); [|done].
  cbn [mbind result_bind].
  destruct (decide (0 ≤ expiryEpochSeconds (expiry hd) ≤ 2 ^ 63 - 1));
    [|done].
  cbn [mbind result_bind]. unfold Buffer_concat. cbn [concat].
  by rewrite app_nil_r.
Qed.

Section error_propagation.
Context `{Imports}.
Implicit Types (tx : AccountTransaction) (sigs : AccountTransactionSignature).


End error_propagation.


